(** * The review-command tokenizer of github-action-auto-assign

    A shallow embedding of the tokenizer module (the backtrackable string
    iterator, the low-level scanner and the high-level token generator)
    together with the properties its specification states about it.

    JavaScript strings are sequences of UTF-16 code units; they are modelled
    as [list N].  The objects the module mutates ([BackableStringIterator],
    [LowLevelScanner]) become records threaded through a small state and
    exception monad; the exceptions are the ones the code can raise
    ([AssertionError] from [assert], [TypeError] from a method call on
    [null]).  The unbounded [for (;;)] and [for ... of] loops take fuel. *)

From Stdlib Require Import String Ascii.
From Stdlib Require Import List NArith Bool Arith Lia.
Import ListNotations.

Set Implicit Arguments.

(* ------------------------------------------------------------------ *)
(** ** Strings and the native string iterator *)

Module JS.

Definition code_unit := N.
Definition jsstring := list code_unit.

(** [a === b] on strings. *)
Fixpoint strictEqual (a b : jsstring) : bool :=
  match a, b with
  | [], [] => true
  | x :: a', y :: b' => N.eqb x y && strictEqual a' b'
  | _, _ => false
  end.

Definition isLeadingSurrogate (c : code_unit) : bool :=
  N.leb 0xD800 c && N.leb c 0xDBFF.

Definition isTrailingSurrogate (c : code_unit) : bool :=
  N.leb 0xDC00 c && N.leb c 0xDFFF.

(** One step of [str[Symbol.iterator]()]: the iterator yields code points,
    that is one code unit, or two when they form a surrogate pair.  The
    iterator's state is the part of the string not yet visited. *)
Definition StringIterator_next (s : jsstring) : option jsstring * jsstring :=
  match s with
  | [] => (None, [])
  | c :: rest =>
      match rest with
      | d :: rest' =>
          if isLeadingSurrogate c && isTrailingSurrogate d
          then (Some [c; d], rest')
          else (Some [c], rest)
      | [] => (Some [c], [])
      end
  end.

(** The code units matched by the regular expression class [\s]
    (WhiteSpace and LineTerminator of ECMAScript). *)
Definition isWhiteSpaceCodeUnit (c : code_unit) : bool :=
  (N.leb 0x0009 c && N.leb c 0x000D)
  || N.eqb c 0x0020
  || N.eqb c 0x00A0
  || N.eqb c 0x1680
  || (N.leb 0x2000 c && N.leb c 0x200A)
  || N.eqb c 0x2028
  || N.eqb c 0x2029
  || N.eqb c 0x202F
  || N.eqb c 0x205F
  || N.eqb c 0x3000
  || N.eqb c 0xFEFF.

(** [s.startsWith('@')]. *)
Definition startsWith_at (s : jsstring) : bool :=
  match s with
  | c :: _ => N.eqb c 0x40
  | [] => false
  end.

(** [s.replace(/^@/u, '')]. *)
Definition replace_leading_at (s : jsstring) : jsstring :=
  match s with
  | c :: rest => if N.eqb c 0x40 then rest else s
  | [] => []
  end.

End JS.
Import JS.

(* ------------------------------------------------------------------ *)
(** ** Exceptions, outcomes and the state monad of the mutable objects *)

Inductive exn : Type :=
| AssertionError
| TypeError.

Inductive outcome (A : Type) : Type :=
| Ok (a : A)
| Throw (e : exn)
| OutOfFuel.

Arguments Ok {A} a.
Arguments Throw {A} e.
Arguments OutOfFuel {A}.

(** A method of an object whose fields are [S]. *)
Definition M (S A : Type) : Type := S -> outcome (A * S).

Definition ret {S A : Type} (a : A) : M S A := fun st => Ok (a, st).

Definition bind {S A B : Type} (m : M S A) (k : A -> M S B) : M S B :=
  fun st =>
    match m st with
    | Ok (a, st') => k a st'
    | Throw e => Throw e
    | OutOfFuel => OutOfFuel
    end.

Definition throw {S A : Type} (e : exn) : M S A := fun _ => Throw e.
Definition get {S : Type} : M S S := fun st => Ok (st, st).
Definition put {S : Type} (st : S) : M S unit := fun _ => Ok (tt, st).

Declare Scope js_scope.
Delimit Scope js_scope with js.
Notation "x <- m ;; k" := (bind m (fun x => k))
  (at level 61, m at next level, right associativity) : js_scope.
Notation "m ;;; k" := (bind m (fun _ => k))
  (at level 61, right associativity) : js_scope.
Open Scope js_scope.

(** [assert.strictEqual(v, null)] and [assert.notStrictEqual(v, null)]. *)
Definition assert_strictEqual_null {S A : Type} (v : option A) : M S unit :=
  match v with
  | None => ret tt
  | Some _ => throw AssertionError
  end.

Definition assert_notStrictEqual_null {S A : Type} (v : option A) : M S unit :=
  match v with
  | Some _ => ret tt
  | None => throw AssertionError
  end.

(* ------------------------------------------------------------------ *)
(** ** BackableStringIterator *)

Module BackableStringIterator.

Record t : Type := mk {
  _iter : jsstring;
  _prevCache : option jsstring;
  _prev : option jsstring
}.

Definition new (str : jsstring) : t :=
  {| _iter := str; _prevCache := None; _prev := None |}.

(** The result [{ done, value }]: [None] is [done: true]. *)
Definition next : M t (option jsstring) :=
  this <- get ;;
  let prev := _prev this in
  match prev with
  | Some p =>
      put {| _iter := _iter this; _prevCache := prev; _prev := None |} ;;;
      ret (Some p)
  | None =>
      assert_strictEqual_null prev ;;;
      let '(r, iter') := StringIterator_next (_iter this) in
      match r with
      | None =>
          put {| _iter := iter'; _prevCache := None; _prev := _prev this |} ;;;
          ret None
      | Some value =>
          put {| _iter := iter'; _prevCache := Some value; _prev := _prev this |} ;;;
          ret (Some value)
      end
  end.

Definition back : M t unit :=
  this <- get ;;
  assert_notStrictEqual_null (_prevCache this) ;;;
  put {| _iter := _iter this; _prevCache := None; _prev := _prevCache this |}.

End BackableStringIterator.

(* ------------------------------------------------------------------ *)
(** ** Low-level tokens and the scanner *)

Inductive LowLevelTokenType : Type :=
| WhiteSpace
| LEof
| Identifier
| Operator
| Invalid.

Record LowLevelToken : Type := mkLowLevelToken {
  ll_type : LowLevelTokenType;
  ll_value : option jsstring
}.

Definition isWhiteSpace (char : jsstring) : bool :=
  existsb isWhiteSpaceCodeUnit char.

Definition isOperatorFragment (char : jsstring) : bool :=
  strictEqual char [0x7C%N] || strictEqual char [0x26%N].

Module LowLevelScanner.

Record t : Type := mk {
  _sourceIter : option BackableStringIterator.t;
  _hasReachedEof : bool
}.

Definition new (source : jsstring) : t :=
  {| _sourceIter := Some (BackableStringIterator.new source);
     _hasReachedEof := false |}.

Definition _destroy : M t unit :=
  put {| _sourceIter := None; _hasReachedEof := true |}.

(** A method call on the object [this._sourceIter] refers to; on [null]
    the call raises [TypeError]. *)
Definition sourceIter_call {A : Type} (m : M BackableStringIterator.t A) : M t A :=
  fun this =>
    match _sourceIter this with
    | None => Throw TypeError
    | Some it =>
        match m it with
        | Ok (a, it') =>
            Ok (a, {| _sourceIter := Some it'; _hasReachedEof := _hasReachedEof this |})
        | Throw e => Throw e
        | OutOfFuel => OutOfFuel
        end
    end.

Fixpoint _scanWhiteSpace_loop (fuel : nat) (buffer : jsstring) : M t jsstring :=
  match fuel with
  | O => fun _ => OutOfFuel
  | S fuel' =>
      r <- sourceIter_call BackableStringIterator.next ;;
      match r with
      | None => ret buffer
      | Some value =>
          if negb (isWhiteSpace value)
          then sourceIter_call BackableStringIterator.back ;;; ret buffer
          else _scanWhiteSpace_loop fuel' (buffer ++ value)
      end
  end.

Definition _scanWhiteSpace (fuel : nat) (char : jsstring) : M t LowLevelToken :=
  buffer <- _scanWhiteSpace_loop fuel char ;;
  ret (mkLowLevelToken WhiteSpace (Some buffer)).

Fixpoint _scanIdentifier_loop (fuel : nat) (buffer : jsstring) : M t jsstring :=
  match fuel with
  | O => fun _ => OutOfFuel
  | S fuel' =>
      r <- sourceIter_call BackableStringIterator.next ;;
      match r with
      | None => ret buffer
      | Some value =>
          if isWhiteSpace value
          then sourceIter_call BackableStringIterator.back ;;; ret buffer
          else _scanIdentifier_loop fuel' (buffer ++ value)
      end
  end.

Definition _scanIdentifier (fuel : nat) (char : jsstring) : M t LowLevelToken :=
  buffer <- _scanIdentifier_loop fuel char ;;
  ret (mkLowLevelToken Identifier (Some buffer)).

Definition _scanOperator (char : jsstring) : M t LowLevelToken :=
  let buffer := char in
  r <- sourceIter_call BackableStringIterator.next ;;
  match r with
  | None => ret (mkLowLevelToken Invalid (Some buffer))
  | Some value =>
      if negb (isOperatorFragment value)
      then ret (mkLowLevelToken Invalid (Some buffer))
      else if negb (strictEqual char value)
      then sourceIter_call BackableStringIterator.back ;;;
           ret (mkLowLevelToken Invalid (Some buffer))
      else ret (mkLowLevelToken Operator (Some (buffer ++ value)))
  end.

Definition _scan (fuel : nat) : M t LowLevelToken :=
  r <- sourceIter_call BackableStringIterator.next ;;
  match r with
  | None => ret (mkLowLevelToken LEof None)
  | Some char =>
      if isWhiteSpace char then _scanWhiteSpace fuel char
      else if isOperatorFragment char then _scanOperator char
      else _scanIdentifier fuel char
  end.

(** The result [{ done, value }]: [None] is [{ done: true }]. *)
Definition next (fuel : nat) : M t (option LowLevelToken) :=
  this <- get ;;
  if _hasReachedEof this then ret None
  else
    value <- _scan fuel ;;
    match ll_type value with
    | LEof => _destroy ;;; ret (Some value)
    | _ => ret (Some value)
    end.

End LowLevelScanner.

(* ------------------------------------------------------------------ *)
(** ** High-level tokens *)

Inductive TokenType : Type :=
| Directive
| AcceptPullRequest
| RejectPullRequest
| AssignReviewer
| UserName
| Unknown
| Eof.

Record HighLevelToken : Type := mkHighLevelToken {
  type : TokenType;
  value : option jsstring
}.

Definition str_r_question : jsstring := [0x72; 0x3F]%N.
Definition str_r_minus : jsstring := [0x72; 0x2D]%N.
Definition str_r_plus : jsstring := [0x72; 0x2B]%N.

(** The generator [createHighLevelToken], run to completion: the list of
    the tokens it yields.  Reading [startsWith] off a [null] value raises
    [TypeError]. *)
Definition createHighLevelToken (token : LowLevelToken) : outcome (list HighLevelToken) :=
  match ll_value token with
  | None => Throw TypeError
  | Some value =>
      if strictEqual value str_r_question then
        Ok [mkHighLevelToken Directive None; mkHighLevelToken AssignReviewer None]
      else if strictEqual value str_r_minus then
        Ok [mkHighLevelToken Directive None; mkHighLevelToken RejectPullRequest None]
      else if strictEqual value str_r_plus then
        Ok [mkHighLevelToken Directive None; mkHighLevelToken AcceptPullRequest None]
      else if startsWith_at value then
        Ok [mkHighLevelToken UserName (Some (replace_leading_at value))]
      else
        Ok [mkHighLevelToken Unknown None]
  end.

Definition yield_all {S : Type} (o : outcome (list HighLevelToken)) : M S (list HighLevelToken) :=
  fun st =>
    match o with
    | Ok l => Ok (l, st)
    | Throw e => Throw e
    | OutOfFuel => OutOfFuel
    end.

(** The body of [tokenizeHighLevel]: the [for ... of] loop over the scanner,
    accumulating what the generator yields. *)
Fixpoint tokenizeHighLevel_loop (fuel steps : nat) : M LowLevelScanner.t (list HighLevelToken) :=
  match steps with
  | O => fun _ => OutOfFuel
  | S steps' =>
      r <- LowLevelScanner.next fuel ;;
      match r with
      | None => ret []
      | Some token =>
          match ll_type token with
          | WhiteSpace => tokenizeHighLevel_loop fuel steps'
          | LEof => ret []
          | Identifier =>
              yielded <- yield_all (createHighLevelToken token) ;;
              rest <- tokenizeHighLevel_loop fuel steps' ;;
              ret (yielded ++ rest)
          | Operator => tokenizeHighLevel_loop fuel steps'
          | Invalid => tokenizeHighLevel_loop fuel steps'
          end
      end
  end.

Definition tokenizeHighLevel_fuel (fuel : nat) (string : jsstring) : outcome (list HighLevelToken) :=
  match tokenizeHighLevel_loop fuel fuel (LowLevelScanner.new string) with
  | Ok (tokens, _) => Ok tokens
  | Throw e => Throw e
  | OutOfFuel => OutOfFuel
  end.

(** Every loop of the tokenizer consumes input at each turn, so the length of
    the string bounds the number of turns. *)
Definition tokenizeHighLevel (string : jsstring) : outcome (list HighLevelToken) :=
  tokenizeHighLevel_fuel (S (length string)) string.

(** ASCII literals, for the examples. *)

Fixpoint js (s : string) : jsstring :=
  match s with
  | EmptyString => []
  | String c s' => N_of_ascii c :: js s'
  end.

(* ------------------------------------------------------------------ *)
(** ** Notions the statements use *)

Module BSI := BackableStringIterator.

(** What is left to read: the unvisited code units and the pushed-back
    character. *)
Definition pending (it : BSI.t) : nat :=
  List.length (BSI._iter it) + match BSI._prev it with Some _ => 1 | None => 0 end.

Module LLS := LowLevelScanner.

(** The scanner before it has produced [Eof]. *)
Definition live (it : BSI.t) : LLS.t := LLS.mk (Some it) false.

(** The scanner after [_destroy]. *)
Definition closed : LLS.t := LLS.mk None true.

(** The iterator once the input is exhausted. *)
Definition exhausted : BSI.t := BSI.mk [] None None.

(** The shape shared by the results of the scanning methods: no exception;
    a result leaves the scanner alive with [bound] relating the iterator
    before and after; fuel runs out only when [short] holds. *)
Definition scans (A : Type) (o : outcome (A * LLS.t))
    (post : A -> BSI.t -> Prop) (short : Prop) : Prop :=
  match o with
  | Ok (a, sc') => exists it', sc' = live it' /\ post a it'
  | Throw _ => False
  | OutOfFuel => short
  end.

(** A token other than [Eof] has consumed input. *)
Definition scan_post (it : BSI.t) (tok : LowLevelToken) (it' : BSI.t) : Prop :=
  tok = mkLowLevelToken LEof None \/
  (ll_type tok <> LEof /\ ll_value tok <> None /\ pending it' < pending it).

(** [n] calls of [next()] in a row: their results, and the scanner they
    leave. *)
Fixpoint next_calls (fuel n : nat) : M LLS.t (list (option LowLevelToken)) :=
  match n with
  | O => ret []
  | S n' =>
      r <- LLS.next fuel ;;
      rs <- next_calls fuel n' ;;
      ret (r :: rs)
  end.

(** The strings the scanner reads as one identifier: not empty, free of
    white space, and not starting with an operator fragment. *)
Definition isIdentifierText (s : jsstring) : bool :=
  match s with
  | [] => false
  | c :: _ =>
      negb (N.eqb c 0x7C) && negb (N.eqb c 0x26)
      && negb (existsb isWhiteSpaceCodeUnit s)
  end.

Definition Directive_token : HighLevelToken := mkHighLevelToken Directive None.
Definition Unknown_token : HighLevelToken := mkHighLevelToken Unknown None.

Definition isCommand (ty : TokenType) : bool :=
  match ty with
  | AcceptPullRequest | RejectPullRequest | AssignReviewer => true
  | _ => false
  end.

(** Sequences made of [Directive]-command pairs, [UserName]s and
    [Unknown]s. *)
Inductive paired : list HighLevelToken -> Prop :=
| paired_nil : paired []
| paired_directive (d c : HighLevelToken) (rest : list HighLevelToken) :
    type d = Directive -> isCommand (type c) = true ->
    paired rest -> paired (d :: c :: rest)
| paired_single (t : HighLevelToken) (rest : list HighLevelToken) :
    type t = UserName \/ type t = Unknown ->
    paired rest -> paired (t :: rest).

(** The exception a run ends with, if any. *)
Definition raised (A : Type) (o : outcome A) : option exn :=
  match o with
  | Throw e => Some e
  | _ => None
  end.

(* ------------------------------------------------------------------ *)
(** ** Iterating over the iterator and over the scanner *)

(** [BackableStringIterator] is its own iterator ([Symbol.iterator] returns
    [this]): the characters an iteration over it visits, up to the call of
    [next()] that reports [done]. *)
Fixpoint BackableStringIterator_iterate (steps : nat) : M BSI.t (list jsstring) :=
  match steps with
  | O => fun _ => OutOfFuel
  | S steps' =>
      r <- BSI.next ;;
      match r with
      | None => ret []
      | Some char =>
          rest <- BackableStringIterator_iterate steps' ;;
          ret (char :: rest)
      end
  end.

(** So is [LowLevelScanner]: the tokens an iteration over it visits, the
    [Eof] token included, up to the call of [next()] that reports [done]. *)
Fixpoint LowLevelScanner_iterate (fuel steps : nat) : M LLS.t (list LowLevelToken) :=
  match steps with
  | O => fun _ => OutOfFuel
  | S steps' =>
      r <- LLS.next fuel ;;
      match r with
      | None => ret []
      | Some token =>
          rest <- LowLevelScanner_iterate fuel steps' ;;
          ret (token :: rest)
      end
  end.

(** The low-level tokens of a string: an iteration over a new scanner.  A
    string of [n] code units has at most [n] tokens before [Eof]. *)
Definition lowLevelTokens (source : jsstring) : outcome (list LowLevelToken) :=
  match LowLevelScanner_iterate (S (List.length source)) (S (S (List.length source)))
          (LLS.new source) with
  | Ok (tokens, _) => Ok tokens
  | Throw e => Throw e
  | OutOfFuel => OutOfFuel
  end.

(** What one low-level token makes [tokenizeHighLevel] yield. *)
Definition yieldedFor (token : LowLevelToken) : list HighLevelToken :=
  match ll_type token with
  | Identifier =>
      match createHighLevelToken token with
      | Ok yielded => yielded
      | _ => []
      end
  | _ => []
  end.

(** The text of a token ([null] is no text). *)
Definition textOf (token : LowLevelToken) : jsstring :=
  match ll_value token with
  | Some v => v
  | None => []
  end.

Definition isInvalid (token : LowLevelToken) : bool :=
  match ll_type token with
  | Invalid => true
  | _ => false
  end.

Definition isOperatorFragmentCodeUnit (c : code_unit) : bool :=
  N.eqb c 0x7C || N.eqb c 0x26.

(** What the value of a token of each type may be. *)
Definition wellFormedToken (token : LowLevelToken) : bool :=
  match ll_type token, ll_value token with
  | WhiteSpace, Some v =>
      negb (strictEqual v []) && forallb isWhiteSpaceCodeUnit v
  | Identifier, Some v => isIdentifierText v
  | Operator, Some v => strictEqual v (js "||") || strictEqual v (js "&&")
  | Invalid, Some v => strictEqual v (js "|") || strictEqual v (js "&")
  | LEof, None => true
  | _, _ => false
  end.

(** What the value of a semantic token of each type may be. *)
Definition wellFormedHighLevelToken (token : HighLevelToken) : bool :=
  match type token, value token with
  | UserName, Some v => negb (existsb isWhiteSpaceCodeUnit v)
  | UserName, None => false
  | _, None => true
  | _, Some _ => false
  end.

(** ** The scanner as a function of the unread text *)

Fixpoint takeWhile (A : Type) (f : A -> bool) (l : list A) : list A :=
  match l with
  | [] => []
  | x :: l' => if f x then x :: takeWhile f l' else []
  end.

Fixpoint dropWhile (A : Type) (f : A -> bool) (l : list A) : list A :=
  match l with
  | [] => []
  | x :: l' => if f x then dropWhile f l' else l
  end.

Definition notWhiteSpaceCodeUnit (c : code_unit) : bool :=
  negb (isWhiteSpaceCodeUnit c).

(** The text the iterator has still to give: the pushed-back character, then
    the unvisited part of the string. *)
Definition unread (it : BSI.t) : jsstring :=
  match BSI._prev it with
  | Some p => p ++ BSI._iter it
  | None => BSI._iter it
  end.

(** A pushed-back character is the one the string iterator gave. *)
Definition settled (it : BSI.t) : Prop :=
  match BSI._prev it with
  | Some p => StringIterator_next (p ++ BSI._iter it) = (Some p, BSI._iter it)
  | None => True
  end.

(** The token [_scan] returns on a text, and the text it leaves unread. *)
Definition firstToken (s : jsstring) : LowLevelToken * jsstring :=
  match StringIterator_next s with
  | (None, _) => (mkLowLevelToken LEof None, [])
  | (Some char, s1) =>
      if isWhiteSpace char then
        (mkLowLevelToken WhiteSpace (Some (char ++ takeWhile isWhiteSpaceCodeUnit s1)),
         dropWhile isWhiteSpaceCodeUnit s1)
      else if isOperatorFragment char then
        match StringIterator_next s1 with
        | (None, _) => (mkLowLevelToken Invalid (Some char), [])
        | (Some v, s2) =>
            if negb (isOperatorFragment v) then (mkLowLevelToken Invalid (Some char), s2)
            else if negb (strictEqual char v) then (mkLowLevelToken Invalid (Some char), s1)
            else (mkLowLevelToken Operator (Some (char ++ v)), s2)
        end
      else
        (mkLowLevelToken Identifier (Some (char ++ takeWhile notWhiteSpaceCodeUnit s1)),
         dropWhile notWhiteSpaceCodeUnit s1)
  end.

(** The tokens of a text of less than [n] code units. *)
Fixpoint lex (n : nat) (s : jsstring) : list LowLevelToken :=
  match n with
  | O => []
  | S n' =>
      let (token, rest) := firstToken s in
      match ll_type token with
      | LEof => [token]
      | _ => token :: lex n' rest
      end
  end.

(** What [tokenizeHighLevel] yields on a text, by [lex]. *)
Definition semantics (s : jsstring) : list HighLevelToken :=
  flat_map yieldedFor (lex (S (List.length s)) s).

(** Words joined by single spaces. *)
Fixpoint joinWords (words : list jsstring) : jsstring :=
  match words with
  | [] => []
  | [w] => w
  | w :: words' => w ++ 0x20%N :: joinWords words'
  end.

(* ------------------------------------------------------------------ *)
(** ** Examples *)

Example tokenize_ex1 :
  tokenizeHighLevel (js "r+ @bob @carol") =
  Ok [mkHighLevelToken Directive None; mkHighLevelToken AcceptPullRequest None;
      mkHighLevelToken UserName (Some (js "bob"));
      mkHighLevelToken UserName (Some (js "carol"))].
Proof. vm_compute. reflexivity. Qed.

Example tokenize_ex2 :
  tokenizeHighLevel (js "looks good to me") =
  Ok [Unknown_token; Unknown_token; Unknown_token; Unknown_token].
Proof. vm_compute. reflexivity. Qed.

(** A surrogate pair is one character of an identifier. *)
Example tokenize_ex3 :
  LLS._scan 9 (LLS.new [0x40; 0xD83D; 0xDE00; 0x20; 0x78]%N) =
  Ok (mkLowLevelToken Identifier (Some [0x40; 0xD83D; 0xDE00]%N),
      live (BSI.mk [0x78%N] None (Some [0x20%N]))).
Proof. vm_compute. reflexivity. Qed.

(* ------------------------------------------------------------------ *)
(** ** The native string iterator *)

Lemma StringIterator_next_done (s s' : jsstring) :
  StringIterator_next s = (None, s') -> s = [] /\ s' = [].
Proof.
  destruct s as [|c [|d rest]]; simpl; intros H.
  - inversion H; auto.
  - discriminate.
  - destruct (isLeadingSurrogate c && isTrailingSurrogate d); discriminate.
Qed.

Lemma StringIterator_next_value (s s' char : jsstring) :
  StringIterator_next s = (Some char, s') -> s = char ++ s' /\ char <> [].
Proof.
  destruct s as [|c [|d rest]]; simpl; intros H.
  - discriminate.
  - inversion H; subst; split; [reflexivity | discriminate].
  - destruct (isLeadingSurrogate c && isTrailingSurrogate d);
      inversion H; subst; split; (reflexivity || discriminate).
Qed.

Lemma isWhiteSpaceCodeUnit_not_surrogate (c : code_unit) :
  isWhiteSpaceCodeUnit c = true -> isLeadingSurrogate c = false.
Proof.
  unfold isWhiteSpaceCodeUnit, isLeadingSurrogate. intros H.
  repeat (apply orb_true_iff in H; destruct H as [H|H]);
    try (apply andb_true_iff in H; destruct H as [H1 H2];
         apply N.leb_le in H1; apply N.leb_le in H2);
    try (apply N.eqb_eq in H);
    apply andb_false_iff;
    ((left; apply N.leb_gt; lia) || (right; apply N.leb_gt; lia)).
Qed.

(** A white-space code unit is always a code point of its own. *)
Lemma StringIterator_next_whiteSpace (c : code_unit) (rest : jsstring) :
  isWhiteSpaceCodeUnit c = true ->
  StringIterator_next (c :: rest) = (Some [c], rest).
Proof.
  intros H. simpl. destruct rest as [|d rest']; [reflexivity|].
  rewrite (isWhiteSpaceCodeUnit_not_surrogate _ H). reflexivity.
Qed.

Lemma strictEqual_eq (a b : jsstring) : strictEqual a b = true <-> a = b.
Proof.
  revert b; induction a as [|x a IH]; intros [|y b]; simpl; split; intros H;
    try reflexivity; try discriminate.
  - apply andb_true_iff in H. destruct H as [H1 H2].
    apply N.eqb_eq in H1. apply IH in H2. congruence.
  - inversion H; subst. rewrite N.eqb_refl. simpl. apply IH. reflexivity.
Qed.

Lemma strictEqual_refl (a : jsstring) : strictEqual a a = true.
Proof. apply strictEqual_eq. reflexivity. Qed.

Lemma strictEqual_neq (a b : jsstring) : a <> b -> strictEqual a b = false.
Proof.
  intros H. destruct (strictEqual a b) eqn:E; [|reflexivity].
  apply strictEqual_eq in E. contradiction.
Qed.

(* ------------------------------------------------------------------ *)
(** ** The backtrackable iterator, state by state *)

Lemma BSI_next_replay (it : BSI.t) (p : jsstring) :
  BSI._prev it = Some p ->
  BSI.next it = Ok (Some p, BSI.mk (BSI._iter it) (Some p) None).
Proof.
  intros H. unfold BSI.next, bind, get, put, ret. rewrite H. reflexivity.
Qed.

Lemma BSI_next_fresh (it : BSI.t) :
  BSI._prev it = None ->
  BSI.next it =
  Ok (fst (StringIterator_next (BSI._iter it)),
      BSI.mk (snd (StringIterator_next (BSI._iter it)))
             (fst (StringIterator_next (BSI._iter it))) None).
Proof.
  intros H. unfold BSI.next, bind, get, put, ret. rewrite H. simpl.
  destruct (StringIterator_next (BSI._iter it)) as [[v|] iter']; reflexivity.
Qed.

Lemma BSI_back_ok (it : BSI.t) (c : jsstring) :
  BSI._prevCache it = Some c ->
  BSI.back it = Ok (tt, BSI.mk (BSI._iter it) None (Some c)).
Proof.
  intros H. unfold BSI.back, bind, get, put. rewrite H. reflexivity.
Qed.

Lemma BSI_back_fail (it : BSI.t) :
  BSI._prevCache it = None -> BSI.back it = Throw AssertionError.
Proof.
  intros H. unfold BSI.back, bind, get, put. rewrite H. reflexivity.
Qed.

(** Every call of [next] succeeds, leaves nothing pushed back and caches
    what it returns; when it returns a character, less is left to read. *)
Lemma BSI_next_spec (it : BSI.t) :
  exists r it',
    BSI.next it = Ok (r, it') /\
    BSI._prev it' = None /\
    BSI._prevCache it' = r /\
    match r with
    | Some _ => pending it' < pending it
    | None => pending it' = 0 /\ pending it = 0
    end.
Proof.
  destruct (BSI._prev it) as [p|] eqn:Hp.
  - eexists _, _. split; [apply BSI_next_replay; exact Hp|].
    unfold pending. rewrite Hp. simpl. repeat split; lia.
  - eexists _, _. split; [apply BSI_next_fresh; exact Hp|].
    unfold pending. rewrite Hp. simpl.
    destruct (StringIterator_next (BSI._iter it)) as [[v|] iter'] eqn:E; simpl.
    + apply StringIterator_next_value in E. destruct E as [E Hne].
      repeat split. rewrite E, length_app.
      destruct v; [contradiction|simpl; lia].
    + apply StringIterator_next_done in E. destruct E as [E1 E2].
      rewrite E1, E2. simpl. repeat split; reflexivity.
Qed.

(* ------------------------------------------------------------------ *)
(** ** The scanner while its iterator is alive *)

Lemma sourceIter_call_live (A : Type) (m : M BSI.t A) (it : BSI.t) :
  LLS.sourceIter_call m (live it) =
  match m it with
  | Ok (a, it') => Ok (a, live it')
  | Throw e => Throw e
  | OutOfFuel => OutOfFuel
  end.
Proof. reflexivity. Qed.

Lemma scanWhiteSpace_loop_scans (fuel : nat) :
  forall (buffer : jsstring) (it : BSI.t),
    BSI._prev it = None ->
    scans (LLS._scanWhiteSpace_loop fuel buffer (live it))
          (fun _ it' => pending it' <= pending it)
          (fuel <= pending it).
Proof.
  induction fuel as [|fuel IH]; intros buffer it Hprev; simpl.
  - lia.
  - unfold bind. rewrite sourceIter_call_live.
    destruct (BSI_next_spec it) as (r & it1 & Hnext & Hp1 & Hc1 & Hm).
    rewrite Hnext. destruct r as [v|].
    + destruct (isWhiteSpace v); simpl.
      * specialize (IH (buffer ++ v) it1 Hp1).
        unfold scans in *.
        destruct (LLS._scanWhiteSpace_loop fuel (buffer ++ v) (live it1))
          as [[b sc']|e|].
        -- destruct IH as (it' & -> & Hle). exists it'. split; [reflexivity|lia].
        -- exact IH.
        -- lia.
      * rewrite sourceIter_call_live, (BSI_back_ok it1 Hc1). simpl.
        eexists. split; [reflexivity|].
        unfold pending in *. simpl. rewrite Hp1 in Hm. lia.
    + simpl. exists it1. split; [reflexivity|lia].
Qed.

Lemma scanIdentifier_loop_scans (fuel : nat) :
  forall (buffer : jsstring) (it : BSI.t),
    BSI._prev it = None ->
    scans (LLS._scanIdentifier_loop fuel buffer (live it))
          (fun _ it' => pending it' <= pending it)
          (fuel <= pending it).
Proof.
  induction fuel as [|fuel IH]; intros buffer it Hprev; simpl.
  - lia.
  - unfold bind. rewrite sourceIter_call_live.
    destruct (BSI_next_spec it) as (r & it1 & Hnext & Hp1 & Hc1 & Hm).
    rewrite Hnext. destruct r as [v|].
    + destruct (isWhiteSpace v); simpl.
      * rewrite sourceIter_call_live, (BSI_back_ok it1 Hc1). simpl.
        eexists. split; [reflexivity|].
        unfold pending in *. simpl. rewrite Hp1 in Hm. lia.
      * specialize (IH (buffer ++ v) it1 Hp1).
        unfold scans in *.
        destruct (LLS._scanIdentifier_loop fuel (buffer ++ v) (live it1))
          as [[b sc']|e|].
        -- destruct IH as (it' & -> & Hle). exists it'. split; [reflexivity|lia].
        -- exact IH.
        -- lia.
    + simpl. exists it1. split; [reflexivity|lia].
Qed.

(** What [_scanOperator] returns is an [Invalid] or an [Operator] token
    with a string value. *)
Lemma scanOperator_scans (char : jsstring) (it : BSI.t) :
  BSI._prev it = None ->
  scans (LLS._scanOperator char (live it))
        (fun tok it' =>
           pending it' <= pending it /\
           (ll_type tok = Invalid \/ ll_type tok = Operator) /\
           ll_value tok <> None)
        False.
Proof.
  intros Hprev. unfold LLS._scanOperator, bind.
  rewrite sourceIter_call_live.
  destruct (BSI_next_spec it) as (r & it1 & Hnext & Hp1 & Hc1 & Hm).
  rewrite Hnext. destruct r as [v|]; simpl.
  - destruct (isOperatorFragment v); simpl.
    + destruct (strictEqual char v); simpl.
      * exists it1. repeat split; [lia|auto|discriminate].
      * rewrite sourceIter_call_live, (BSI_back_ok it1 Hc1). simpl.
        eexists. split; [reflexivity|]. repeat split; [|auto|discriminate].
        unfold pending in *. simpl. rewrite Hp1 in Hm. lia.
    + exists it1. repeat split; [lia|auto|discriminate].
  - exists it1. repeat split; [lia|auto|discriminate].
Qed.

Lemma scan_scans (fuel : nat) (it : BSI.t) :
  scans (LLS._scan fuel (live it)) (scan_post it) (fuel <= pending it).
Proof.
  unfold LLS._scan, bind. rewrite sourceIter_call_live.
  destruct (BSI_next_spec it) as (r & it1 & Hnext & Hp1 & Hc1 & Hm).
  rewrite Hnext. destruct r as [char|]; simpl.
  - destruct (isWhiteSpace char).
    + unfold LLS._scanWhiteSpace, bind.
      pose proof (scanWhiteSpace_loop_scans fuel char it1 Hp1) as H.
      unfold scans in *.
      destruct (LLS._scanWhiteSpace_loop fuel char (live it1)) as [[b sc']|e|].
      * destruct H as (it' & -> & Hle). exists it'. split; [reflexivity|].
        right. simpl. split; [discriminate|split; [discriminate|lia]].
      * exact H.
      * lia.
    + destruct (isOperatorFragment char).
      * pose proof (scanOperator_scans char it1 Hp1) as H.
        unfold scans in *.
        destruct (LLS._scanOperator char (live it1)) as [[tok sc']|e|];
          [|exact H|contradiction].
        destruct H as (it' & -> & Hle & Hty & Hval). exists it'.
        split; [reflexivity|]. right.
        split; [destruct Hty as [Hty|Hty]; rewrite Hty; discriminate|split; [exact Hval|lia]].
      * unfold LLS._scanIdentifier, bind.
        pose proof (scanIdentifier_loop_scans fuel char it1 Hp1) as H.
        unfold scans in *.
        destruct (LLS._scanIdentifier_loop fuel char (live it1)) as [[b sc']|e|].
        -- destruct H as (it' & -> & Hle). exists it'. split; [reflexivity|].
           right. simpl. split; [discriminate|split; [discriminate|lia]].
        -- exact H.
        -- lia.
  - exists it1. split; [reflexivity|]. left. reflexivity.
Qed.

Lemma next_closed (fuel : nat) (sc : LLS.t) :
  LLS._hasReachedEof sc = true -> LLS.next fuel sc = Ok (None, sc).
Proof.
  intros H. unfold LLS.next, bind, get, ret. rewrite H. reflexivity.
Qed.

Lemma next_live (fuel : nat) (it : BSI.t) :
  LLS.next fuel (live it) =
  match LLS._scan fuel (live it) with
  | Ok (tok, sc') =>
      match ll_type tok with
      | LEof => Ok (Some tok, closed)
      | _ => Ok (Some tok, sc')
      end
  | Throw e => Throw e
  | OutOfFuel => OutOfFuel
  end.
Proof.
  unfold LLS.next, bind, get. simpl.
  destruct (LLS._scan fuel (live it)) as [[[ty v] sc']|e|]; try reflexivity.
  destruct ty; reflexivity.
Qed.

(** One turn of the [for ... of] loop of [tokenizeHighLevel]. *)
Lemma tokenizeHighLevel_loop_turn (fuel steps : nat) (it : BSI.t) :
  tokenizeHighLevel_loop fuel (S steps) (live it) =
  match LLS._scan fuel (live it) with
  | Ok (tok, sc') =>
      match ll_type tok with
      | LEof => Ok ([], closed)
      | Identifier =>
          match createHighLevelToken tok with
          | Ok yielded =>
              match tokenizeHighLevel_loop fuel steps sc' with
              | Ok (rest, sc'') => Ok (yielded ++ rest, sc'')
              | Throw e => Throw e
              | OutOfFuel => OutOfFuel
              end
          | Throw e => Throw e
          | OutOfFuel => OutOfFuel
          end
      | _ => tokenizeHighLevel_loop fuel steps sc'
      end
  | Throw e => Throw e
  | OutOfFuel => OutOfFuel
  end.
Proof.
  cbn [tokenizeHighLevel_loop]. unfold bind at 1. rewrite next_live.
  destruct (LLS._scan fuel (live it)) as [[[ty v] sc']|e|]; try reflexivity.
  destruct ty; try reflexivity.
  cbn [ll_type]. unfold bind, yield_all, ret.
  destruct (createHighLevelToken _) as [l|e|]; try reflexivity.
Qed.

(** [createHighLevelToken] succeeds on every token that carries a string. *)
Lemma createHighLevelToken_ok (tok : LowLevelToken) :
  ll_value tok <> None -> exists l, createHighLevelToken tok = Ok l.
Proof.
  unfold createHighLevelToken. destruct (ll_value tok) as [v|]; [|contradiction].
  intros _.
  destruct (strictEqual v str_r_question); [eexists; reflexivity|].
  destruct (strictEqual v str_r_minus); [eexists; reflexivity|].
  destruct (strictEqual v str_r_plus); [eexists; reflexivity|].
  destruct (startsWith_at v); eexists; reflexivity.
Qed.

(** The loop raises nothing, and stops short only for lack of fuel. *)
Lemma tokenizeHighLevel_loop_runs (fuel steps : nat) :
  forall it : BSI.t,
    match tokenizeHighLevel_loop fuel steps (live it) with
    | Ok _ => True
    | Throw _ => False
    | OutOfFuel => fuel <= pending it \/ steps <= pending it
    end.
Proof.
  induction steps as [|steps IH]; intros it.
  - simpl. right. lia.
  - rewrite tokenizeHighLevel_loop_turn.
    pose proof (scan_scans fuel it) as H. unfold scans in H.
    destruct (LLS._scan fuel (live it)) as [[tok sc']|e|];
      [|exact H|left; exact H].
    destruct H as (it' & -> & [-> | (Hty & Hval & Hlt)]); [exact I|].
    specialize (IH it').
    assert (Hrec : match tokenizeHighLevel_loop fuel steps (live it') with
                   | Ok _ => True
                   | Throw _ => False
                   | OutOfFuel => fuel <= pending it \/ S steps <= pending it
                   end).
    { destruct (tokenizeHighLevel_loop fuel steps (live it')); auto.
      destruct IH; [left|right]; lia. }
    destruct (ll_type tok); try exact Hrec; [contradiction|].
    destruct (createHighLevelToken_ok tok Hval) as [l ->].
    destruct (tokenizeHighLevel_loop fuel steps (live it')) as [[rest sc'']|e|];
      auto.
Qed.

(** With fuel beyond the length of the input the tokenizer returns. *)
Lemma tokenizeHighLevel_fuel_returns (fuel : nat) (s : jsstring) :
  List.length s < fuel -> exists tokens, tokenizeHighLevel_fuel fuel s = Ok tokens.
Proof.
  intros Hlen. unfold tokenizeHighLevel_fuel.
  pose proof (tokenizeHighLevel_loop_runs fuel fuel (BSI.new s)) as H.
  change (LLS.new s) with (live (BSI.new s)).
  destruct (tokenizeHighLevel_loop fuel fuel (live (BSI.new s))) as [[tokens sc]|e|].
  - exists tokens. reflexivity.
  - contradiction.
  - unfold pending in H. simpl in H. lia.
Qed.

Lemma tokenizeHighLevel_fuel_no_throw (fuel : nat) (s : jsstring) (e : exn) :
  tokenizeHighLevel_fuel fuel s <> Throw e.
Proof.
  unfold tokenizeHighLevel_fuel.
  pose proof (tokenizeHighLevel_loop_runs fuel fuel (BSI.new s)) as H.
  change (LLS.new s) with (live (BSI.new s)).
  destruct (tokenizeHighLevel_loop fuel fuel (live (BSI.new s))) as [[tokens sc]|e'|];
    [discriminate|contradiction|discriminate].
Qed.

(* ------------------------------------------------------------------ *)
(** ** More fuel changes no result *)

Lemma scanWhiteSpace_loop_mono (fuel : nat) :
  forall (fuel' : nat) (buffer : jsstring) (sc : LLS.t),
    fuel <= fuel' ->
    LLS._scanWhiteSpace_loop fuel buffer sc <> OutOfFuel ->
    LLS._scanWhiteSpace_loop fuel' buffer sc = LLS._scanWhiteSpace_loop fuel buffer sc.
Proof.
  induction fuel as [|fuel IH]; intros fuel' buffer sc Hle Hrun.
  - simpl in Hrun. contradiction.
  - destruct fuel' as [|fuel']; [lia|]. simpl in *. unfold bind in *.
    destruct (LLS.sourceIter_call BSI.next sc) as [[[v|] sc1]|e|]; try reflexivity.
    destruct (isWhiteSpace v); simpl in *; [|reflexivity].
    apply IH; [lia|exact Hrun].
Qed.

Lemma scanIdentifier_loop_mono (fuel : nat) :
  forall (fuel' : nat) (buffer : jsstring) (sc : LLS.t),
    fuel <= fuel' ->
    LLS._scanIdentifier_loop fuel buffer sc <> OutOfFuel ->
    LLS._scanIdentifier_loop fuel' buffer sc = LLS._scanIdentifier_loop fuel buffer sc.
Proof.
  induction fuel as [|fuel IH]; intros fuel' buffer sc Hle Hrun.
  - simpl in Hrun. contradiction.
  - destruct fuel' as [|fuel']; [lia|]. simpl in *. unfold bind in *.
    destruct (LLS.sourceIter_call BSI.next sc) as [[[v|] sc1]|e|]; try reflexivity.
    destruct (isWhiteSpace v); simpl in *; [reflexivity|].
    apply IH; [lia|exact Hrun].
Qed.

Lemma scan_mono (fuel fuel' : nat) (sc : LLS.t) :
  fuel <= fuel' ->
  LLS._scan fuel sc <> OutOfFuel ->
  LLS._scan fuel' sc = LLS._scan fuel sc.
Proof.
  intros Hle Hrun. unfold LLS._scan, bind in *.
  destruct (LLS.sourceIter_call BSI.next sc) as [[[char|] sc1]|e|]; try reflexivity.
  destruct (isWhiteSpace char).
  - unfold LLS._scanWhiteSpace, bind in *.
    rewrite (@scanWhiteSpace_loop_mono fuel fuel' char sc1 Hle); [reflexivity|].
    intros E. rewrite E in Hrun. apply Hrun. reflexivity.
  - destruct (isOperatorFragment char); [reflexivity|].
    unfold LLS._scanIdentifier, bind in *.
    rewrite (@scanIdentifier_loop_mono fuel fuel' char sc1 Hle); [reflexivity|].
    intros E. rewrite E in Hrun. apply Hrun. reflexivity.
Qed.

Lemma next_mono (fuel fuel' : nat) (sc : LLS.t) :
  fuel <= fuel' ->
  LLS.next fuel sc <> OutOfFuel ->
  LLS.next fuel' sc = LLS.next fuel sc.
Proof.
  intros Hle Hrun. unfold LLS.next, bind, get in *.
  destruct (LLS._hasReachedEof sc); [reflexivity|].
  rewrite (@scan_mono fuel fuel' sc Hle); [reflexivity|].
  intros E. rewrite E in Hrun. apply Hrun. reflexivity.
Qed.

Lemma tokenizeHighLevel_loop_mono (steps : nat) :
  forall (steps' fuel fuel' : nat) (sc : LLS.t),
    fuel <= fuel' -> steps <= steps' ->
    tokenizeHighLevel_loop fuel steps sc <> OutOfFuel ->
    tokenizeHighLevel_loop fuel' steps' sc = tokenizeHighLevel_loop fuel steps sc.
Proof.
  induction steps as [|steps IH]; intros steps' fuel fuel' sc Hf Hs Hrun.
  - simpl in Hrun. contradiction.
  - destruct steps' as [|steps']; [lia|].
    cbn [tokenizeHighLevel_loop] in *. unfold bind in *.
    rewrite (@next_mono fuel fuel' sc Hf);
      [|intros E; rewrite E in Hrun; apply Hrun; reflexivity].
    destruct (LLS.next fuel sc) as [[[tok|] sc1]|e|]; try reflexivity.
    assert (Hrec : tokenizeHighLevel_loop fuel steps sc1 <> OutOfFuel ->
                   tokenizeHighLevel_loop fuel' steps' sc1 =
                   tokenizeHighLevel_loop fuel steps sc1).
    { apply IH; lia. }
    destruct (ll_type tok); try (apply Hrec; exact Hrun); try reflexivity.
    destruct (yield_all (createHighLevelToken tok) sc1) as [[l sc2]|e|] eqn:Ey;
      try reflexivity.
    assert (sc2 = sc1) as ->.
    { unfold yield_all in Ey. destruct (createHighLevelToken tok); congruence. }
    rewrite Hrec; [reflexivity|].
    intros E. rewrite E in Hrun. apply Hrun. reflexivity.
Qed.

(** Any fuel beyond the length of the input gives the result
    [tokenizeHighLevel] gives. *)
Lemma tokenizeHighLevel_fuel_stable (fuel : nat) (s : jsstring) :
  List.length s < fuel -> tokenizeHighLevel_fuel fuel s = tokenizeHighLevel s.
Proof.
  intros Hlen. unfold tokenizeHighLevel.
  destruct (@tokenizeHighLevel_fuel_returns (S (List.length s)) s) as [tokens Hr]; [lia|].
  rewrite Hr. unfold tokenizeHighLevel_fuel in *.
  rewrite (@tokenizeHighLevel_loop_mono (S (List.length s)) fuel (S (List.length s)) fuel);
    [ |lia|lia| ].
  - destruct (tokenizeHighLevel_loop _ _ _) as [[t sc]|e|]; congruence.
  - destruct (tokenizeHighLevel_loop _ _ _) as [[t sc]|e|]; congruence.
Qed.

(* ------------------------------------------------------------------ *)
(** ** The contract of the backtrackable iterator *)

(** Pushing back the character just read and reading again gives that
    character and restores the state. *)
Lemma BSI_back_then_next (it it1 : BSI.t) (c : jsstring) :
  BSI.next it = Ok (Some c, it1) ->
  exists it2,
    BSI.back it1 = Ok (tt, it2) /\
    BSI._iter it2 = BSI._iter it1 /\
    BSI.next it2 = Ok (Some c, it1).
Proof.
  intros H.
  destruct (BSI_next_spec it) as (r & it' & Hnext & Hp & Hc & _).
  assert (Hc1 : BSI._prevCache it1 = Some c) by congruence.
  assert (Hp1 : BSI._prev it1 = None) by congruence.
  clear Hnext Hp Hc.
  eexists. split; [apply BSI_back_ok; exact Hc1|]. split; [reflexivity|].
  rewrite (@BSI_next_replay _ c); [|reflexivity]. simpl.
  destruct it1 as [i pc p]. simpl in *. subst. reflexivity.
Qed.

(** C9.  [back()] fails with the assertion when it is called twice in a row,
    before any [next()], or after a [next()] that reported the end of the
    input; after a [next()] that returned a character [c], [back()] succeeds,
    the following [next()] returns [c] again without touching the underlying
    string, and leaves the iterator in the very state it had before the
    [back()], so that iteration resumes as if nothing had been pushed back. *)
Theorem back_contract :
  (forall it it1 : BSI.t,
      BSI.back it = Ok (tt, it1) -> BSI.back it1 = Throw AssertionError) /\
  (forall str : jsstring, BSI.back (BSI.new str) = Throw AssertionError) /\
  (forall it it1 : BSI.t,
      BSI.next it = Ok (None, it1) -> BSI.back it1 = Throw AssertionError) /\
  (forall (it it1 : BSI.t) (c : jsstring),
      BSI.next it = Ok (Some c, it1) ->
      exists it2,
        BSI.back it1 = Ok (tt, it2) /\
        BSI._iter it2 = BSI._iter it1 /\
        BSI.next it2 = Ok (Some c, it1)).
Proof.
  split; [|split; [|split]].
  - intros it it1 H. apply BSI_back_fail.
    destruct (BSI._prevCache it) as [c|] eqn:Hc.
    + rewrite (BSI_back_ok it Hc) in H. inversion H. reflexivity.
    + rewrite (BSI_back_fail it Hc) in H. discriminate.
  - intros str. apply BSI_back_fail. reflexivity.
  - intros it it1 H. apply BSI_back_fail.
    destruct (BSI_next_spec it) as (r & it' & Hnext & _ & Hc & _).
    congruence.
  - exact BSI_back_then_next.
Qed.

Lemma back_contract_witness :
  BSI.back (BSI.mk (js "b") None (Some (js "a"))) = Throw AssertionError /\
  BSI.back (BSI.mk [] None None) = Throw AssertionError /\
  exists it2,
    BSI.back (BSI.mk (js "b") (Some (js "a")) None) = Ok (tt, it2) /\
    BSI._iter it2 = js "b" /\
    BSI.next it2 = Ok (Some (js "a"), BSI.mk (js "b") (Some (js "a")) None).
Proof.
  destruct back_contract as (H1 & _ & H3 & H4).
  split; [|split].
  - apply (H1 (BSI.mk (js "b") (Some (js "a")) None)). reflexivity.
  - apply (H3 (BSI.new [])). reflexivity.
  - apply (H4 (BSI.new (js "ab"))). reflexivity.
Defined.

(* ------------------------------------------------------------------ *)
(** ** Operators *)

Lemma scanOperator_next (char : jsstring) (it : BSI.t) :
  LLS._scanOperator char (live it) =
  match BSI.next it with
  | Ok (None, it1) => Ok (mkLowLevelToken Invalid (Some char), live it1)
  | Ok (Some v, it1) =>
      if negb (isOperatorFragment v)
      then Ok (mkLowLevelToken Invalid (Some char), live it1)
      else if negb (strictEqual char v)
      then match BSI.back it1 with
           | Ok (_, it2) => Ok (mkLowLevelToken Invalid (Some char), live it2)
           | Throw e => Throw e
           | OutOfFuel => OutOfFuel
           end
      else Ok (mkLowLevelToken Operator (Some (char ++ v)), live it1)
  | Throw e => Throw e
  | OutOfFuel => OutOfFuel
  end.
Proof.
  unfold LLS._scanOperator, bind. rewrite sourceIter_call_live.
  destruct (BSI.next it) as [[[v|] it1]|e|]; try reflexivity.
  destruct (isOperatorFragment v); simpl; [|reflexivity].
  destruct (strictEqual char v); simpl; [reflexivity|].
  rewrite sourceIter_call_live.
  destruct (BSI.back it1) as [[[] it2]|e|]; reflexivity.
Qed.

(* ------------------------------------------------------------------ *)
(** ** After the end of the input *)

Lemma next_calls_closed (fuel n : nat) (sc : LLS.t) :
  LLS._hasReachedEof sc = true ->
  next_calls fuel n sc = Ok (repeat None n, sc).
Proof.
  intros H. induction n as [|n IH]; simpl; [reflexivity|].
  unfold bind. rewrite (next_closed fuel sc H), IH. reflexivity.
Qed.

Lemma next_Eof_closes (fuel : nat) (sc sc' : LLS.t) (tok : LowLevelToken) :
  LLS.next fuel sc = Ok (Some tok, sc') -> ll_type tok = LEof -> sc' = closed.
Proof.
  unfold LLS.next, bind, get, ret. intros H Hty.
  destruct (LLS._hasReachedEof sc); [discriminate|].
  destruct (LLS._scan fuel sc) as [[tok' sc1]|e|]; try discriminate.
  destruct (ll_type tok') eqn:Ety; simpl in H; inversion H; subst;
    congruence || reflexivity.
Qed.

(** C8.  Once [next()] has returned an [Eof] token the scanner is closed:
    it holds no iterator any more ([_sourceIter] is [null]), and any number
    of further calls of [next()] all report [done] without a value, raise
    nothing and leave the scanner as it is. *)
Theorem next_after_Eof (fuel : nat) (sc sc' : LLS.t) (tok : LowLevelToken) :
  LLS.next fuel sc = Ok (Some tok, sc') ->
  ll_type tok = LEof ->
  LLS._sourceIter sc' = None /\
  forall fuel' n : nat, next_calls fuel' n sc' = Ok (repeat None n, sc').
Proof.
  intros H Hty. rewrite (next_Eof_closes _ _ H Hty).
  split; [reflexivity|]. intros fuel' n. apply next_calls_closed. reflexivity.
Qed.

Lemma next_after_Eof_witness :
  LLS._sourceIter closed = None /\
  forall fuel' n : nat, next_calls fuel' n closed = Ok (repeat None n, closed).
Proof.
  apply (@next_after_Eof 1 (LLS.new []) closed (mkLowLevelToken LEof None));
    reflexivity.
Defined.

(* ------------------------------------------------------------------ *)
(** ** Runs of white space and of identifier characters *)

Lemma scanWhiteSpace_loop_all (s : jsstring) :
  forall (fuel : nat) (buffer : jsstring) (cache : option jsstring),
    forallb isWhiteSpaceCodeUnit s = true ->
    List.length s < fuel ->
    LLS._scanWhiteSpace_loop fuel buffer (live (BSI.mk s cache None)) =
    Ok (buffer ++ s, live exhausted).
Proof.
  induction s as [|c rest IH]; intros fuel buffer cache Hws Hlen;
    (destruct fuel as [|fuel]; [simpl in Hlen; lia|]);
    cbn [LLS._scanWhiteSpace_loop]; unfold bind;
    rewrite sourceIter_call_live, BSI_next_fresh by reflexivity;
    cbn [BSI._iter].
  - simpl. rewrite app_nil_r. reflexivity.
  - simpl in Hws. apply andb_true_iff in Hws. destruct Hws as [Hc Hrest].
    rewrite (StringIterator_next_whiteSpace c rest Hc). cbn [fst snd].
    unfold isWhiteSpace. cbn [existsb]. rewrite Hc. cbn [orb negb].
    rewrite IH; [|exact Hrest|simpl in Hlen; lia].
    rewrite <- app_assoc. reflexivity.
Qed.

Lemma scanIdentifier_loop_all (fuel : nat) :
  forall (s buffer : jsstring) (cache : option jsstring),
    existsb isWhiteSpaceCodeUnit s = false ->
    List.length s < fuel ->
    LLS._scanIdentifier_loop fuel buffer (live (BSI.mk s cache None)) =
    Ok (buffer ++ s, live exhausted).
Proof.
  induction fuel as [|fuel IH]; intros s buffer cache Hws Hlen; [lia|].
  cbn [LLS._scanIdentifier_loop]. unfold bind.
  rewrite sourceIter_call_live, BSI_next_fresh by reflexivity.
  cbn [BSI._iter].
  destruct (StringIterator_next s) as [[v|] s'] eqn:E; cbn [fst snd].
  - apply StringIterator_next_value in E. destruct E as [-> Hne].
    rewrite existsb_app in Hws. apply orb_false_iff in Hws.
    destruct Hws as [Hv Hs']. unfold isWhiteSpace. rewrite Hv.
    rewrite IH; [|exact Hs'|].
    + rewrite <- app_assoc. reflexivity.
    + rewrite length_app in Hlen. destruct v; [contradiction|simpl in Hlen; lia].
  - apply StringIterator_next_done in E. destruct E as [-> ->].
    simpl. rewrite app_nil_r. reflexivity.
Qed.

Lemma scan_exhausted (fuel : nat) :
  LLS._scan fuel (live exhausted) = Ok (mkLowLevelToken LEof None, live exhausted).
Proof. reflexivity. Qed.

(** A white-space-only input is one [WhiteSpace] token. *)
Lemma scan_whiteSpace_only (fuel : nat) (c : code_unit) (rest : jsstring) :
  forallb isWhiteSpaceCodeUnit (c :: rest) = true ->
  List.length (c :: rest) < fuel ->
  LLS._scan fuel (LLS.new (c :: rest)) =
  Ok (mkLowLevelToken WhiteSpace (Some (c :: rest)), live exhausted).
Proof.
  intros Hws Hlen. change (LLS.new (c :: rest)) with (live (BSI.new (c :: rest))).
  unfold LLS._scan, bind.
  rewrite sourceIter_call_live, BSI_next_fresh by reflexivity.
  cbn [BSI.new BSI._iter].
  simpl in Hws. apply andb_true_iff in Hws. destruct Hws as [Hc Hrest].
  rewrite (StringIterator_next_whiteSpace c rest Hc). cbn [fst snd].
  unfold isWhiteSpace at 1. cbn [existsb]. rewrite Hc. cbn [orb].
  unfold LLS._scanWhiteSpace, bind.
  rewrite scanWhiteSpace_loop_all; [reflexivity|exact Hrest|simpl in Hlen; lia].
Qed.

Lemma scan_identifier_only (fuel : nat) (s : jsstring) :
  isIdentifierText s = true ->
  List.length s < fuel ->
  LLS._scan fuel (LLS.new s) =
  Ok (mkLowLevelToken Identifier (Some s), live exhausted).
Proof.
  intros Hid Hlen. change (LLS.new s) with (live (BSI.new s)).
  destruct s as [|c rest]; [discriminate|].
  unfold isIdentifierText in Hid.
  apply andb_true_iff in Hid. destruct Hid as [Hid Hws].
  apply andb_true_iff in Hid. destruct Hid as [Hbar Hamp].
  apply negb_true_iff in Hws, Hbar, Hamp.
  unfold LLS._scan, bind.
  rewrite sourceIter_call_live, BSI_next_fresh by reflexivity.
  cbn [BSI.new BSI._iter].
  destruct (StringIterator_next (c :: rest)) as [[v|] s'] eqn:E; cbn [fst snd].
  - pose proof E as E'.
    apply StringIterator_next_value in E'. destruct E' as [Hs Hne].
    rewrite Hs in Hws. rewrite existsb_app in Hws. apply orb_false_iff in Hws.
    destruct Hws as [Hv Hs']. unfold isWhiteSpace at 1. rewrite Hv.
    assert (Hop : isOperatorFragment v = false).
    { destruct v as [|c' v']; [contradiction|].
      simpl in Hs. inversion Hs; subst c'.
      unfold isOperatorFragment. simpl. rewrite Hbar, Hamp. reflexivity. }
    rewrite Hop. unfold LLS._scanIdentifier, bind.
    rewrite scanIdentifier_loop_all; [rewrite <- Hs; reflexivity|exact Hs'|].
    rewrite Hs, length_app in Hlen. lia.
  - apply StringIterator_next_done in E. destruct E; discriminate.
Qed.

(** An identifier alone yields what [createHighLevelToken] yields for it. *)
Lemma tokenizeHighLevel_identifier (s : jsstring) :
  isIdentifierText s = true ->
  tokenizeHighLevel s = createHighLevelToken (mkLowLevelToken Identifier (Some s)).
Proof.
  intros Hid. unfold tokenizeHighLevel, tokenizeHighLevel_fuel.
  assert (Hlen : 1 <= List.length s) by (destruct s; [discriminate|simpl; lia]).
  destruct (List.length s) as [|n] eqn:En; [lia|].
  change (LLS.new s) with (live (BSI.new s)).
  rewrite tokenizeHighLevel_loop_turn.
  change (live (BSI.new s)) with (LLS.new s).
  rewrite scan_identifier_only; [|exact Hid|lia]. cbn [ll_type].
  destruct (@createHighLevelToken_ok (mkLowLevelToken Identifier (Some s)))
    as [l Hl]; [discriminate|].
  rewrite Hl, tokenizeHighLevel_loop_turn, scan_exhausted. cbn [ll_type].
  rewrite app_nil_r. reflexivity.
Qed.

(** C6.  In the loop of [tokenizeHighLevel] a [WhiteSpace], [Operator] or
    [Invalid] token yields nothing: the turn that scans it continues with the
    next one; and an input made of white-space code units only, whatever its
    length and composition, yields the empty sequence. *)
Theorem whiteSpace_yields_nothing :
  (forall (fuel steps : nat) (it : BSI.t) (tok : LowLevelToken) (sc' : LLS.t),
      LLS._scan fuel (live it) = Ok (tok, sc') ->
      ll_type tok = WhiteSpace \/ ll_type tok = Operator \/ ll_type tok = Invalid ->
      tokenizeHighLevel_loop fuel (S steps) (live it) =
      tokenizeHighLevel_loop fuel steps sc') /\
  (forall s : jsstring,
      forallb isWhiteSpaceCodeUnit s = true -> tokenizeHighLevel s = Ok []) /\
  tokenizeHighLevel (js (String " " (String " " (String " "
    (String "010" (String "009" (String " " (String " " EmptyString)))))))) = Ok [].
Proof.
  split; [|split].
  - intros fuel steps it tok sc' Hscan Hty.
    rewrite tokenizeHighLevel_loop_turn, Hscan.
    destruct Hty as [-> | [-> | ->]]; reflexivity.
  - intros s Hws. unfold tokenizeHighLevel, tokenizeHighLevel_fuel.
    destruct s as [|c rest]; [reflexivity|].
    change (LLS.new (c :: rest)) with (live (BSI.new (c :: rest))).
    cbn [List.length].
    rewrite tokenizeHighLevel_loop_turn.
    change (live (BSI.new (c :: rest))) with (LLS.new (c :: rest)).
    rewrite scan_whiteSpace_only; [|exact Hws|simpl; lia]. cbn [ll_type].
    rewrite tokenizeHighLevel_loop_turn, scan_exhausted. reflexivity.
  - vm_compute. reflexivity.
Qed.

Lemma whiteSpace_yields_nothing_witness :
  tokenizeHighLevel_loop 5 3 (LLS.new (js " a")) =
  tokenizeHighLevel_loop 5 2 (live (BSI.mk [] None (Some (js "a")))) /\
  tokenizeHighLevel [0x20; 0x09; 0x0A; 0x3000; 0xA0]%N = Ok [].
Proof.
  destruct whiteSpace_yields_nothing as (H1 & H2 & _).
  split.
  - apply (H1 5 2 (BSI.new (js " a")) (mkLowLevelToken WhiteSpace (Some (js " "))));
      [reflexivity|left; reflexivity].
  - apply H2. reflexivity.
Defined.

(* ------------------------------------------------------------------ *)
(** ** Identifiers and semantic tokens *)

(** C2.  [createHighLevelToken] maps the value ["r?"] to [Directive] then
    [AssignReviewer], ["r-"] to [Directive] then [RejectPullRequest], ["r+"]
    to [Directive] then [AcceptPullRequest], and every other value that does
    not start with ["@"] to a single [Unknown]; the comparison is exact, so
    that ["R+"] is [Unknown], and the tokenizer gives these sequences on the
    inputs ["r?"], ["r-"], ["r+"], ["R+"] and on every other input that is
    one identifier. *)
Theorem identifier_mapping :
  (forall ty : LowLevelTokenType,
      createHighLevelToken (mkLowLevelToken ty (Some (js "r?"))) =
        Ok [Directive_token; mkHighLevelToken AssignReviewer None] /\
      createHighLevelToken (mkLowLevelToken ty (Some (js "r-"))) =
        Ok [Directive_token; mkHighLevelToken RejectPullRequest None] /\
      createHighLevelToken (mkLowLevelToken ty (Some (js "r+"))) =
        Ok [Directive_token; mkHighLevelToken AcceptPullRequest None]) /\
  (forall (ty : LowLevelTokenType) (v : jsstring),
      v <> js "r?" -> v <> js "r-" -> v <> js "r+" ->
      startsWith_at v = false ->
      createHighLevelToken (mkLowLevelToken ty (Some v)) = Ok [Unknown_token]) /\
  tokenizeHighLevel (js "r?") =
    Ok [Directive_token; mkHighLevelToken AssignReviewer None] /\
  tokenizeHighLevel (js "r-") =
    Ok [Directive_token; mkHighLevelToken RejectPullRequest None] /\
  tokenizeHighLevel (js "r+") =
    Ok [Directive_token; mkHighLevelToken AcceptPullRequest None] /\
  tokenizeHighLevel (js "R+") = Ok [Unknown_token] /\
  tokenizeHighLevel (js "r +") = Ok [Unknown_token; Unknown_token] /\
  (forall s : jsstring,
      isIdentifierText s = true ->
      s <> js "r?" -> s <> js "r-" -> s <> js "r+" ->
      startsWith_at s = false ->
      tokenizeHighLevel s = Ok [Unknown_token]).
Proof.
  assert (Hother : forall (ty : LowLevelTokenType) (v : jsstring),
             v <> js "r?" -> v <> js "r-" -> v <> js "r+" ->
             startsWith_at v = false ->
             createHighLevelToken (mkLowLevelToken ty (Some v)) = Ok [Unknown_token]).
  { intros ty v H1 H2 H3 Hat. unfold createHighLevelToken. cbn [ll_value].
    change str_r_question with (js "r?"). change str_r_minus with (js "r-").
    change str_r_plus with (js "r+").
    rewrite (strictEqual_neq H1), (strictEqual_neq H2), (strictEqual_neq H3), Hat.
    reflexivity. }
  split; [intros ty; repeat split; reflexivity|].
  split; [exact Hother|].
  do 5 (split; [vm_compute; reflexivity|]).
  intros s Hid H1 H2 H3 Hat.
  rewrite (tokenizeHighLevel_identifier s Hid). apply Hother; assumption.
Qed.

Lemma identifier_mapping_witness :
  createHighLevelToken (mkLowLevelToken Identifier (Some (js "r=bob"))) =
    Ok [Unknown_token] /\
  tokenizeHighLevel (js "lgtm") = Ok [Unknown_token].
Proof.
  destruct identifier_mapping as (_ & H1 & _ & _ & _ & _ & _ & H2).
  split.
  - apply H1; (discriminate || reflexivity).
  - apply H2; (discriminate || reflexivity).
Defined.

(** C4.  For every value that starts with ["@"], [createHighLevelToken]
    yields a single [UserName] token whose value is what follows that one
    ["@"], be it empty; so does the tokenizer on an input that is such an
    identifier, as on ["@alice"] and on ["@"]. *)
Theorem userName_mapping :
  (forall (ty : LowLevelTokenType) (rest : jsstring),
      createHighLevelToken (mkLowLevelToken ty (Some (0x40%N :: rest))) =
      Ok [mkHighLevelToken UserName (Some rest)]) /\
  (forall rest : jsstring,
      existsb isWhiteSpaceCodeUnit rest = false ->
      tokenizeHighLevel (0x40%N :: rest) =
      Ok [mkHighLevelToken UserName (Some rest)]) /\
  tokenizeHighLevel (js "@alice") = Ok [mkHighLevelToken UserName (Some (js "alice"))] /\
  tokenizeHighLevel (js "@") = Ok [mkHighLevelToken UserName (Some [])] /\
  tokenizeHighLevel (js "@@bob") = Ok [mkHighLevelToken UserName (Some (js "@bob"))].
Proof.
  assert (Hat : forall (ty : LowLevelTokenType) (rest : jsstring),
             createHighLevelToken (mkLowLevelToken ty (Some (0x40%N :: rest))) =
             Ok [mkHighLevelToken UserName (Some rest)]).
  { intros ty rest. reflexivity. }
  split; [exact Hat|]. split; [|repeat split; vm_compute; reflexivity].
  intros rest Hws. rewrite tokenizeHighLevel_identifier; [apply Hat|].
  unfold isIdentifierText. cbn [existsb]. rewrite Hws. reflexivity.
Qed.

Lemma userName_mapping_witness :
  tokenizeHighLevel (js "@carol|x") =
  Ok [mkHighLevelToken UserName (Some (js "carol|x"))].
Proof.
  destruct userName_mapping as (_ & H & _).
  apply (H (js "carol|x")). reflexivity.
Defined.

(* ------------------------------------------------------------------ *)
(** ** A character after a lone operator fragment *)

(** C3, as the specification states it, fails: ["|x"] does not yield
    [[Unknown]]. *)
Lemma bar_x_not_Unknown :
  tokenizeHighLevel (js "|x") <> Ok [Unknown_token].
Proof. vm_compute. discriminate. Qed.

(** C3, amended.  For the input ["|x"] the tokenizer yields the empty
    sequence: the scan of ["|"] reads ["x"], finds that it is no operator
    fragment and returns [Invalid] with value ["|"] without pushing ["x"]
    back; the next scan finds the input exhausted and returns [Eof]. *)
Theorem bar_x_yields_nothing :
  tokenizeHighLevel (js "|x") = Ok [] /\
  LLS._scan 3 (LLS.new (js "|x")) =
    Ok (mkLowLevelToken Invalid (Some (js "|")),
        live (BSI.mk [] (Some (js "x")) None)) /\
  LLS._scan 3 (live (BSI.mk [] (Some (js "x")) None)) =
    Ok (mkLowLevelToken LEof None, live exhausted).
Proof. repeat split; vm_compute; reflexivity. Qed.

(** In general: a character that is no operator fragment, read after a lone
    operator fragment, is consumed and not pushed back. *)
Lemma scanOperator_discards (c v : jsstring) (it it1 : BSI.t) :
  BSI.next it = Ok (Some v, it1) ->
  isOperatorFragment v = false ->
  LLS._scanOperator c (live it) = Ok (mkLowLevelToken Invalid (Some c), live it1) /\
  BSI._prev it1 = None.
Proof.
  intros Hnext Hv. rewrite scanOperator_next, Hnext, Hv. split; [reflexivity|].
  destruct (BSI_next_spec it) as (r & it' & Hnext' & Hp & _). congruence.
Qed.

(* ------------------------------------------------------------------ *)
(** ** Directives come in pairs *)

#[local] Hint Constructors paired : core.

Lemma paired_app (l1 l2 : list HighLevelToken) :
  paired l1 -> paired l2 -> paired (l1 ++ l2).
Proof. induction 1; intros H2; simpl; auto. Qed.

Lemma createHighLevelToken_paired (tok : LowLevelToken) (l : list HighLevelToken) :
  createHighLevelToken tok = Ok l -> paired l.
Proof.
  unfold createHighLevelToken. destruct (ll_value tok) as [v|]; [|discriminate].
  destruct (strictEqual v str_r_question);
    [intros H; inversion H; apply paired_directive; auto|].
  destruct (strictEqual v str_r_minus);
    [intros H; inversion H; apply paired_directive; auto|].
  destruct (strictEqual v str_r_plus);
    [intros H; inversion H; apply paired_directive; auto|].
  destruct (startsWith_at v); intros H; inversion H; apply paired_single; auto.
Qed.

Lemma tokenizeHighLevel_loop_paired (fuel steps : nat) :
  forall (sc sc' : LLS.t) (tokens : list HighLevelToken),
    tokenizeHighLevel_loop fuel steps sc = Ok (tokens, sc') -> paired tokens.
Proof.
  induction steps as [|steps IH]; intros sc sc' tokens H; [discriminate|].
  cbn [tokenizeHighLevel_loop] in H. unfold bind in H.
  destruct (LLS.next fuel sc) as [[[tok|] sc1]|e|]; try discriminate.
  - destruct (ll_type tok); try (eapply IH; exact H).
    + inversion H. constructor.
    + unfold yield_all in H.
      destruct (createHighLevelToken tok) as [l|e|] eqn:El; try discriminate.
      destruct (tokenizeHighLevel_loop fuel steps sc1) as [[rest sc2]|e|] eqn:Er;
        try discriminate.
      inversion H; subst. apply paired_app.
      * eapply createHighLevelToken_paired; exact El.
      * eapply IH; exact Er.
  - inversion H. constructor.
Qed.

Lemma paired_head (t : HighLevelToken) (l : list HighLevelToken) :
  paired (t :: l) -> isCommand (type t) = false.
Proof.
  intros H. inversion H as [|d c rest Hd _ _|t' rest [Ht|Ht] _]; subst.
  - rewrite Hd. reflexivity.
  - rewrite Ht. reflexivity.
  - rewrite Ht. reflexivity.
Qed.

(** After a [Directive] comes a command, and after it no second one. *)
Lemma paired_after_directive (l : list HighLevelToken) :
  paired l ->
  forall (i : nat) (t : HighLevelToken),
    nth_error l i = Some t -> type t = Directive ->
    (exists c, nth_error l (S i) = Some c /\ isCommand (type c) = true) /\
    (forall t', nth_error l (S (S i)) = Some t' -> isCommand (type t') = false).
Proof.
  induction 1 as [|d c rest Hd Hc Hrest IH|t0 rest Ht0 Hrest IH]; intros i t Hi Ht.
  - destruct i; discriminate.
  - destruct i as [|[|i]]; simpl in Hi.
    + split; [exists c; auto|].
      intros t' Ht'. simpl in Ht'. destruct rest as [|r rest']; [discriminate|].
      inversion Ht'; subst. eapply paired_head; exact Hrest.
    + inversion Hi; subst. rewrite Ht in Hc. discriminate.
    + apply (IH i t Hi Ht).
  - destruct i as [|i]; simpl in Hi.
    + inversion Hi; subst. destruct Ht0 as [E|E]; rewrite E in Ht; discriminate.
    + apply (IH i t Hi Ht).
Qed.

(** Before a command comes a [Directive]. *)
Lemma paired_before_command (l : list HighLevelToken) :
  paired l ->
  forall (i : nat) (t : HighLevelToken),
    nth_error l i = Some t -> isCommand (type t) = true ->
    exists (j : nat) (d : HighLevelToken),
      i = S j /\ nth_error l j = Some d /\ type d = Directive.
Proof.
  induction 1 as [|d c rest Hd Hc Hrest IH|t0 rest Ht0 Hrest IH]; intros i t Hi Ht.
  - destruct i; discriminate.
  - destruct i as [|[|i]]; simpl in Hi.
    + inversion Hi; subst. rewrite Hd in Ht. discriminate.
    + exists 0, d. auto.
    + destruct (IH i t Hi Ht) as (j & d' & -> & Hj & Hd').
      exists (S (S j)), d'. auto.
  - destruct i as [|i]; simpl in Hi.
    + inversion Hi; subst. destruct Ht0 as [E|E]; rewrite E in Ht; discriminate.
    + destruct (IH i t Hi Ht) as (j & d' & -> & Hj & Hd').
      exists (S j), d'. auto.
Qed.

Lemma paired_no_Eof (l : list HighLevelToken) :
  paired l -> forall t : HighLevelToken, In t l -> type t <> Eof.
Proof.
  induction 1 as [|d c rest Hd Hc Hrest IH|t0 rest Ht0 Hrest IH]; intros t Hin.
  - contradiction.
  - destruct Hin as [<-|[<-|Hin]]; [congruence| |auto].
    intros E. rewrite E in Hc. discriminate.
  - destruct Hin as [<-|Hin]; [|auto]. destruct Ht0; congruence.
Qed.

Lemma tokenizeHighLevel_paired (s : jsstring) :
  exists tokens, tokenizeHighLevel s = Ok tokens /\ paired tokens.
Proof.
  destruct (@tokenizeHighLevel_fuel_returns (S (List.length s)) s) as [tokens H];
    [lia|].
  exists tokens. split; [exact H|].
  unfold tokenizeHighLevel_fuel in H.
  destruct (tokenizeHighLevel_loop _ _ _) as [[l sc]|e|] eqn:E; try discriminate.
  inversion H; subst. eapply tokenizeHighLevel_loop_paired; exact E.
Qed.

(** C10.  In the sequence the tokenizer yields for any input, every
    [Directive] is immediately followed by a token of type
    [AcceptPullRequest], [RejectPullRequest] or [AssignReviewer], and by one
    only; every token of these types immediately follows a [Directive]; and
    no token has type [Eof]. *)
Theorem directives_are_paired (s : jsstring) :
  exists tokens : list HighLevelToken,
    tokenizeHighLevel s = Ok tokens /\
    (forall (i : nat) (t : HighLevelToken),
        nth_error tokens i = Some t -> type t = Directive ->
        (exists c, nth_error tokens (S i) = Some c /\ isCommand (type c) = true) /\
        (forall t', nth_error tokens (S (S i)) = Some t' ->
                    isCommand (type t') = false)) /\
    (forall (i : nat) (t : HighLevelToken),
        nth_error tokens i = Some t -> isCommand (type t) = true ->
        exists (j : nat) (d : HighLevelToken),
          i = S j /\ nth_error tokens j = Some d /\ type d = Directive) /\
    (forall t : HighLevelToken, In t tokens -> type t <> Eof).
Proof.
  destruct (tokenizeHighLevel_paired s) as (tokens & H & Hp).
  exists tokens. split; [exact H|]. split; [|split].
  - exact (paired_after_directive Hp).
  - exact (paired_before_command Hp).
  - exact (paired_no_Eof Hp).
Qed.

Lemma directives_are_paired_witness :
  exists tokens : list HighLevelToken,
    tokenizeHighLevel (js "r+ @bob") = Ok tokens /\
    exists c, nth_error tokens 1 = Some c /\ isCommand (type c) = true.
Proof.
  destruct (directives_are_paired (js "r+ @bob")) as (tokens & H & H1 & _).
  exists tokens. split; [exact H|].
  vm_compute in H. inversion H; subst tokens.
  apply (H1 0 Directive_token); reflexivity.
Defined.

(* ------------------------------------------------------------------ *)
(** ** No assertion, and an end *)

(** C1.  Whatever the input, and however far the tokenizer is run, no
    exception ends the run: neither of the assertions of
    [BackableStringIterator] fails (nor is a method of a destroyed iterator
    called); in particular the complete run raises nothing. *)
Theorem tokenizeHighLevel_never_asserts (s : jsstring) :
  (forall fuel : nat, raised (tokenizeHighLevel_fuel fuel s) = None) /\
  raised (tokenizeHighLevel s) = None.
Proof.
  assert (H : forall fuel : nat, raised (tokenizeHighLevel_fuel fuel s) = None).
  { intros fuel. pose proof (@tokenizeHighLevel_fuel_no_throw fuel s) as Hn.
    destruct (tokenizeHighLevel_fuel fuel s) as [l|e|]; try reflexivity.
    exfalso. apply (Hn e). reflexivity. }
  split; [exact H|apply H].
Qed.

(** C5.  Tokenization terminates: for every input the run returns a finite
    list of tokens, the same for any amount of fuel beyond the length of the
    input. *)
Theorem tokenizeHighLevel_terminates (s : jsstring) :
  exists tokens : list HighLevelToken,
    tokenizeHighLevel s = Ok tokens /\
    forall k : nat, tokenizeHighLevel_fuel (S (List.length s) + k) s = Ok tokens.
Proof.
  destruct (@tokenizeHighLevel_fuel_returns (S (List.length s)) s) as [tokens H];
    [lia|].
  exists tokens. split; [exact H|].
  intros k. rewrite tokenizeHighLevel_fuel_stable; [exact H|lia].
Qed.


(* ------------------------------------------------------------------ *)
(** ** Characters *)

Lemma isWhiteSpaceCodeUnit_not_trailing (c : code_unit) :
  isWhiteSpaceCodeUnit c = true -> isTrailingSurrogate c = false.
Proof.
  unfold isWhiteSpaceCodeUnit, isTrailingSurrogate. intros H.
  repeat (apply orb_true_iff in H; destruct H as [H|H]);
    try (apply andb_true_iff in H; destruct H as [H1 H2];
         apply N.leb_le in H1; apply N.leb_le in H2);
    try (apply N.eqb_eq in H);
    apply andb_false_iff;
    ((left; apply N.leb_gt; lia) || (right; apply N.leb_gt; lia)).
Qed.

Lemma isWhiteSpaceCodeUnit_not_fragment (c : code_unit) :
  isWhiteSpaceCodeUnit c = true -> isOperatorFragmentCodeUnit c = false.
Proof.
  unfold isWhiteSpaceCodeUnit, isOperatorFragmentCodeUnit. intros H.
  repeat (apply orb_true_iff in H; destruct H as [H|H]);
    try (apply andb_true_iff in H; destruct H as [H1 H2];
         apply N.leb_le in H1; apply N.leb_le in H2);
    try (apply N.eqb_eq in H);
    apply orb_false_iff; split; apply N.eqb_neq; lia.
Qed.

Lemma isLeadingSurrogate_not_fragment (c : code_unit) :
  isLeadingSurrogate c = true -> isOperatorFragmentCodeUnit c = false.
Proof.
  unfold isLeadingSurrogate, isOperatorFragmentCodeUnit. intros H.
  apply andb_true_iff in H. destruct H as [H1 H2].
  apply N.leb_le in H1. apply N.leb_le in H2.
  apply orb_false_iff; split; apply N.eqb_neq; lia.
Qed.

(** A character is one code unit or a surrogate pair. *)
Lemma StringIterator_next_char (s s' v : jsstring) :
  StringIterator_next s = (Some v, s') ->
  (exists c, v = [c]) \/
  (exists c d, v = [c; d] /\ isLeadingSurrogate c = true /\ isTrailingSurrogate d = true).
Proof.
  destruct s as [|c [|d rest]]; simpl; intros H.
  - discriminate.
  - inversion H. left. eauto.
  - destruct (isLeadingSurrogate c && isTrailingSurrogate d) eqn:E; inversion H.
    + apply andb_true_iff in E. right. exists c, d. tauto.
    + left. eauto.
Qed.

Lemma isWhiteSpace_char (s s' v : jsstring) :
  StringIterator_next s = (Some v, s') ->
  isWhiteSpace v = true ->
  exists c, v = [c] /\ isWhiteSpaceCodeUnit c = true.
Proof.
  intros H Hws. unfold isWhiteSpace in Hws.
  destruct (StringIterator_next_char _ H) as [[c ->]|(c & d & -> & Hc & Hd)].
  - exists c. simpl in Hws. rewrite orb_false_r in Hws. auto.
  - simpl in Hws. rewrite orb_false_r in Hws.
    apply orb_true_iff in Hws. destruct Hws as [Hw|Hw].
    + rewrite (isWhiteSpaceCodeUnit_not_surrogate _ Hw) in Hc. discriminate.
    + rewrite (isWhiteSpaceCodeUnit_not_trailing _ Hw) in Hd. discriminate.
Qed.

Lemma isOperatorFragment_char (v : jsstring) :
  isOperatorFragment v = true ->
  exists c, v = [c] /\ isOperatorFragmentCodeUnit c = true.
Proof.
  unfold isOperatorFragment. intros H. apply orb_true_iff in H.
  destruct H as [H|H]; apply strictEqual_eq in H; subst; eexists; split;
    reflexivity.
Qed.

Lemma isOperatorFragment_unit (c : code_unit) :
  isOperatorFragment [c] = isOperatorFragmentCodeUnit c.
Proof.
  unfold isOperatorFragment, isOperatorFragmentCodeUnit. simpl.
  rewrite !andb_true_r. reflexivity.
Qed.

(** The first character of a text does not depend on what follows the text,
    unless that could complete a surrogate pair. *)
Lemma StringIterator_next_app (s s' v : jsstring) (w : code_unit) (b : jsstring) :
  StringIterator_next s = (Some v, s') ->
  isTrailingSurrogate w = false ->
  StringIterator_next (s ++ w :: b) = (Some v, s' ++ w :: b).
Proof.
  destruct s as [|c [|d rest]]; simpl; intros H Hw.
  - discriminate.
  - inversion H; subst. rewrite Hw, andb_false_r. reflexivity.
  - destruct (isLeadingSurrogate c && isTrailingSurrogate d); inversion H; subst;
      reflexivity.
Qed.

Lemma takeWhile_dropWhile (A : Type) (f : A -> bool) (l : list A) :
  takeWhile f l ++ dropWhile f l = l.
Proof.
  induction l as [|x l IH]; simpl; [reflexivity|].
  destruct (f x); simpl; [rewrite IH|]; reflexivity.
Qed.

Lemma takeWhile_forallb (A : Type) (f : A -> bool) (l : list A) :
  forallb f (takeWhile f l) = true.
Proof.
  induction l as [|x l IH]; simpl; [reflexivity|].
  destruct (f x) eqn:E; simpl; [rewrite E, IH|]; reflexivity.
Qed.

Lemma takeWhile_app_all (A : Type) (f : A -> bool) (v l : list A) :
  forallb f v = true -> takeWhile f (v ++ l) = v ++ takeWhile f l.
Proof.
  induction v as [|x v IH]; simpl; intros H; [reflexivity|].
  apply andb_true_iff in H. destruct H as [Hx Hv].
  rewrite Hx, IH by exact Hv. reflexivity.
Qed.

Lemma dropWhile_app_all (A : Type) (f : A -> bool) (v l : list A) :
  forallb f v = true -> dropWhile f (v ++ l) = dropWhile f l.
Proof.
  induction v as [|x v IH]; simpl; intros H; [reflexivity|].
  apply andb_true_iff in H. destruct H as [Hx Hv].
  rewrite Hx, IH by exact Hv. reflexivity.
Qed.

Lemma dropWhile_head (A : Type) (f : A -> bool) (l : list A) (x : A) (l' : list A) :
  dropWhile f l = x :: l' -> f x = false.
Proof.
  induction l as [|y l IH]; simpl; intros H; [discriminate|].
  destruct (f y) eqn:E; [auto|]. inversion H; subst. exact E.
Qed.

Lemma dropWhile_length (A : Type) (f : A -> bool) (l : list A) :
  List.length (dropWhile f l) <= List.length l.
Proof.
  induction l as [|y l IH]; simpl; [lia|]. destruct (f y); simpl; lia.
Qed.

Lemma existsb_isWhiteSpace_forallb (v : jsstring) :
  existsb isWhiteSpaceCodeUnit v = false -> forallb notWhiteSpaceCodeUnit v = true.
Proof.
  induction v as [|c v IH]; simpl; intros H; [reflexivity|].
  apply orb_false_iff in H. destruct H as [Hc Hv].
  unfold notWhiteSpaceCodeUnit at 1. rewrite Hc, IH by exact Hv. reflexivity.
Qed.

Lemma forallb_notWhiteSpace_existsb (v : jsstring) :
  forallb notWhiteSpaceCodeUnit v = true -> existsb isWhiteSpaceCodeUnit v = false.
Proof.
  induction v as [|c v IH]; simpl; intros H; [reflexivity|].
  apply andb_true_iff in H. destruct H as [Hc Hv].
  unfold notWhiteSpaceCodeUnit in Hc. apply negb_true_iff in Hc.
  rewrite Hc, IH by exact Hv. reflexivity.
Qed.

(* ------------------------------------------------------------------ *)
(** ** The scanner computes [firstToken] *)

Lemma settled_fresh (s : jsstring) (cache : option jsstring) :
  settled (BSI.mk s cache None).
Proof. exact I. Qed.

(** A call of [next()] sees the unread text only. *)
Lemma BSI_next_unread (it : BSI.t) :
  settled it ->
  BSI.next it = BSI.next (BSI.new (unread it)).
Proof.
  unfold settled, unread. intros H.
  destruct (BSI._prev it) as [p|] eqn:Hp.
  - rewrite (BSI_next_replay it Hp).
    rewrite (BSI_next_fresh (BSI.new (p ++ BSI._iter it))) by reflexivity.
    cbn [BSI.new BSI._iter]. rewrite H. reflexivity.
  - rewrite (BSI_next_fresh it Hp).
    rewrite (BSI_next_fresh (BSI.new (BSI._iter it))) by reflexivity.
    reflexivity.
Qed.

Lemma scan_unread (fuel : nat) (it : BSI.t) :
  settled it ->
  LLS._scan fuel (live it) = LLS._scan fuel (LLS.new (unread it)).
Proof.
  intros H. change (LLS.new (unread it)) with (live (BSI.new (unread it))).
  unfold LLS._scan, bind. rewrite !sourceIter_call_live, (BSI_next_unread it H).
  reflexivity.
Qed.

Lemma scanWhiteSpace_loop_span (s : jsstring) :
  forall (fuel : nat) (buffer : jsstring) (cache : option jsstring),
    List.length s < fuel ->
    exists it',
      LLS._scanWhiteSpace_loop fuel buffer (live (BSI.mk s cache None)) =
        Ok (buffer ++ takeWhile isWhiteSpaceCodeUnit s, live it') /\
      settled it' /\ unread it' = dropWhile isWhiteSpaceCodeUnit s.
Proof.
  induction s as [|c rest IH]; intros fuel buffer cache Hlen;
    (destruct fuel as [|fuel]; [simpl in Hlen; lia|]);
    cbn [LLS._scanWhiteSpace_loop]; unfold bind;
    rewrite sourceIter_call_live, BSI_next_fresh by reflexivity;
    cbn [BSI._iter].
  - simpl. rewrite app_nil_r. eexists. split; [reflexivity|]. split; [exact I|reflexivity].
  - destruct (isWhiteSpaceCodeUnit c) eqn:Hc.
    + rewrite (StringIterator_next_whiteSpace c rest Hc). cbn [fst snd].
      unfold isWhiteSpace. cbn [existsb]. rewrite Hc. cbn [orb negb].
      destruct (IH fuel (buffer ++ [c]) (Some [c])) as (it' & Hrun & Hs & Hu);
        [simpl in Hlen; lia|].
      exists it'. rewrite Hrun. cbn [takeWhile dropWhile]. rewrite Hc.
      rewrite <- app_assoc. auto.
    + destruct (StringIterator_next (c :: rest)) as [[v|] s'] eqn:E; cbn [fst snd].
      * assert (Hv : isWhiteSpace v = false).
        { destruct (isWhiteSpace v) eqn:Hv; [|reflexivity].
          destruct (isWhiteSpace_char _ E Hv) as (c' & -> & Hc').
          apply StringIterator_next_value in E. destruct E as [E _].
          inversion E; subst. congruence. }
        rewrite Hv. cbn [negb].
        rewrite sourceIter_call_live, (@BSI_back_ok _ v) by reflexivity.
        cbn [BSI._iter bind ret]. eexists. split; [|split].
        -- cbn [takeWhile]. rewrite Hc, app_nil_r. reflexivity.
        -- unfold settled. cbn [BSI._prev BSI._iter].
           pose proof (StringIterator_next_value _ E) as [Es _].
           rewrite <- Es. exact E.
        -- unfold unread. cbn [BSI._prev BSI._iter dropWhile]. rewrite Hc.
           pose proof (StringIterator_next_value _ E) as [Es _]. auto.
      * apply StringIterator_next_done in E. destruct E; discriminate.
Qed.

Lemma scanIdentifier_loop_span (fuel : nat) :
  forall (s buffer : jsstring) (cache : option jsstring),
    List.length s < fuel ->
    exists it',
      LLS._scanIdentifier_loop fuel buffer (live (BSI.mk s cache None)) =
        Ok (buffer ++ takeWhile notWhiteSpaceCodeUnit s, live it') /\
      settled it' /\ unread it' = dropWhile notWhiteSpaceCodeUnit s.
Proof.
  induction fuel as [|fuel IH]; intros s buffer cache Hlen; [lia|].
  cbn [LLS._scanIdentifier_loop]. unfold bind.
  rewrite sourceIter_call_live, BSI_next_fresh by reflexivity.
  cbn [BSI._iter].
  destruct (StringIterator_next s) as [[v|] s'] eqn:E; cbn [fst snd].
  - pose proof (StringIterator_next_value _ E) as [Es Hne].
    destruct (isWhiteSpace v) eqn:Hv.
    + destruct (isWhiteSpace_char _ E Hv) as (c & -> & Hc).
      rewrite sourceIter_call_live, (@BSI_back_ok _ [c]) by reflexivity.
      cbn [BSI._iter bind ret]. eexists. split; [|split].
      * rewrite Es. cbn [app takeWhile]. unfold notWhiteSpaceCodeUnit at 1.
        rewrite Hc. cbn [negb]. rewrite app_nil_r. reflexivity.
      * unfold settled. cbn [BSI._prev BSI._iter]. rewrite <- Es. exact E.
      * unfold unread. cbn [BSI._prev BSI._iter]. rewrite Es.
        cbn [app dropWhile]. unfold notWhiteSpaceCodeUnit at 1.
        rewrite Hc. reflexivity.
    + destruct (IH s' (buffer ++ v) (Some v)) as (it' & Hrun & Hs & Hu).
      { rewrite Es, length_app in Hlen. destruct v; [contradiction|simpl in Hlen; lia]. }
      exists it'. rewrite Hrun. subst s.
      pose proof (existsb_isWhiteSpace_forallb v Hv) as Hall.
      rewrite (takeWhile_app_all _ _ _ Hall), (dropWhile_app_all _ _ _ Hall).
      rewrite <- app_assoc. auto.
  - apply StringIterator_next_done in E. destruct E as [-> ->].
    simpl. rewrite app_nil_r. eexists. split; [reflexivity|]. split; [exact I|reflexivity].
Qed.

Lemma scanOperator_fresh (char s : jsstring) (cache : option jsstring) :
  exists it',
    LLS._scanOperator char (live (BSI.mk s cache None)) =
      Ok (match StringIterator_next s with
          | (None, _) => mkLowLevelToken Invalid (Some char)
          | (Some v, s2) =>
              if negb (isOperatorFragment v) then mkLowLevelToken Invalid (Some char)
              else if negb (strictEqual char v) then mkLowLevelToken Invalid (Some char)
              else mkLowLevelToken Operator (Some (char ++ v))
          end, live it') /\
    settled it' /\
    unread it' =
      match StringIterator_next s with
      | (None, _) => []
      | (Some v, s2) =>
          if negb (isOperatorFragment v) then s2
          else if negb (strictEqual char v) then s
          else s2
      end.
Proof.
  rewrite scanOperator_next, BSI_next_fresh by reflexivity. cbn [BSI._iter].
  destruct (StringIterator_next s) as [[v|] s2] eqn:E; cbn [fst snd].
  - destruct (isOperatorFragment v); cbn [negb].
    + destruct (strictEqual char v); cbn [negb].
      * eexists. split; [reflexivity|]. split; [exact I|reflexivity].
      * rewrite (@BSI_back_ok _ v) by reflexivity. cbn [BSI._iter].
        pose proof (StringIterator_next_value _ E) as [Es _].
        eexists. split; [reflexivity|]. split.
        -- unfold settled. cbn [BSI._prev BSI._iter]. rewrite <- Es. exact E.
        -- unfold unread. cbn [BSI._prev BSI._iter]. auto.
    + eexists. split; [reflexivity|]. split; [exact I|reflexivity].
  - apply StringIterator_next_done in E. destruct E as [_ ->].
    eexists. split; [reflexivity|]. split; [exact I|reflexivity].
Qed.

(** On a new scanner [_scan] returns the token of [firstToken] and leaves
    its rest unread. *)
Lemma scan_firstToken (fuel : nat) (s : jsstring) :
  List.length s < fuel ->
  exists it',
    LLS._scan fuel (LLS.new s) = Ok (fst (firstToken s), live it') /\
    settled it' /\ unread it' = snd (firstToken s).
Proof.
  intros Hlen. change (LLS.new s) with (live (BSI.new s)).
  unfold LLS._scan, bind, firstToken.
  rewrite sourceIter_call_live, BSI_next_fresh by reflexivity.
  cbn [BSI.new BSI._iter].
  destruct (StringIterator_next s) as [[char|] s1] eqn:E; cbn [fst snd].
  - pose proof (StringIterator_next_value _ E) as [Es Hne].
    assert (Hlen1 : List.length s1 < fuel).
    { rewrite Es, length_app in Hlen. lia. }
    destruct (isWhiteSpace char).
    + unfold LLS._scanWhiteSpace, bind.
      destruct (@scanWhiteSpace_loop_span s1 fuel char (Some char) Hlen1)
        as (it' & Hrun & Hs & Hu).
      rewrite Hrun. exists it'. auto.
    + destruct (isOperatorFragment char).
      * destruct (scanOperator_fresh char s1 (Some char)) as (it' & Hrun & Hs & Hu).
        rewrite Hrun. exists it'.
        destruct (StringIterator_next s1) as [[v|] s2]; cbn [fst snd].
        -- destruct (negb (isOperatorFragment v)); [auto|].
           destruct (negb (strictEqual char v)); auto.
        -- auto.
      * unfold LLS._scanIdentifier, bind.
        destruct (@scanIdentifier_loop_span fuel s1 char (Some char) Hlen1)
          as (it' & Hrun & Hs & Hu).
        rewrite Hrun. exists it'. auto.
  - eexists. split; [reflexivity|]. split; [exact I|].
    apply StringIterator_next_done in E. destruct E as [_ ->]. reflexivity.
Qed.

Lemma scan_settled (fuel : nat) (it : BSI.t) :
  settled it ->
  List.length (unread it) < fuel ->
  exists it',
    LLS._scan fuel (live it) = Ok (fst (firstToken (unread it)), live it') /\
    settled it' /\ unread it' = snd (firstToken (unread it)).
Proof.
  intros Hs Hlen. rewrite (scan_unread fuel it Hs).
  apply scan_firstToken. exact Hlen.
Qed.

(** [firstToken] gives [Eof] on the empty text only, and otherwise leaves a
    shorter text. *)
Lemma firstToken_nil : firstToken [] = (mkLowLevelToken LEof None, []).
Proof. reflexivity. Qed.

Lemma firstToken_cons (c : code_unit) (s : jsstring) :
  ll_type (fst (firstToken (c :: s))) <> LEof /\
  List.length (snd (firstToken (c :: s))) < List.length (c :: s).
Proof.
  unfold firstToken.
  destruct (StringIterator_next (c :: s)) as [[char|] s1] eqn:E.
  - pose proof (StringIterator_next_value _ E) as [Es Hne].
    assert (Hl : List.length s1 < List.length (c :: s)).
    { rewrite Es, length_app. destruct char; [contradiction|simpl; lia]. }
    destruct (isWhiteSpace char); cbn [fst snd ll_type].
    + split; [discriminate|].
      pose proof (dropWhile_length isWhiteSpaceCodeUnit s1). lia.
    + destruct (isOperatorFragment char).
      * destruct (StringIterator_next s1) as [[v|] s2] eqn:E2.
        -- pose proof (StringIterator_next_value _ E2) as [Es2 _].
           assert (List.length s2 <= List.length s1)
             by (rewrite Es2, length_app; lia).
           destruct (negb (isOperatorFragment v)); cbn [fst snd ll_type];
             [split; [discriminate|lia]|].
           destruct (negb (strictEqual char v)); cbn [fst snd ll_type];
             split; (discriminate || lia).
        -- cbn [fst snd ll_type]. split; [discriminate|simpl; lia].
      * cbn [fst snd ll_type]. split; [discriminate|].
        pose proof (dropWhile_length notWhiteSpaceCodeUnit s1). lia.
  - apply StringIterator_next_done in E. destruct E; discriminate.
Qed.

Lemma lex_nil (n : nat) : lex (S n) [] = [mkLowLevelToken LEof None].
Proof. reflexivity. Qed.

Lemma lex_cons (n : nat) (c : code_unit) (s : jsstring) :
  lex (S n) (c :: s) =
  fst (firstToken (c :: s)) :: lex n (snd (firstToken (c :: s))).
Proof.
  cbn [lex]. pose proof (firstToken_cons c s) as [Hty _].
  destruct (firstToken (c :: s)) as [tok rest]. cbn [fst snd] in *.
  destruct (ll_type tok); try reflexivity. contradiction.
Qed.

(** More fuel gives [lex] nothing more. *)
Lemma lex_stable (n : nat) :
  forall (m : nat) (s : jsstring),
    List.length s < n -> List.length s < m -> lex n s = lex m s.
Proof.
  induction n as [|n IH]; intros m s Hn Hm; [lia|].
  destruct m as [|m]; [lia|]. destruct s as [|c s]; [reflexivity|].
  rewrite !lex_cons. f_equal.
  pose proof (firstToken_cons c s) as [_ Hl]. apply IH; simpl in *; lia.
Qed.

(** An iteration over the scanner visits the tokens of [lex]. *)
Lemma LowLevelScanner_iterate_lex (n : nat) :
  forall (it : BSI.t) (fuel steps : nat),
    settled it ->
    List.length (unread it) < n ->
    List.length (unread it) < fuel ->
    n < steps ->
    LowLevelScanner_iterate fuel steps (live it) = Ok (lex n (unread it), closed).
Proof.
  induction n as [|n IH]; intros it fuel steps Hs Hn Hf Hsteps; [lia|].
  destruct steps as [|steps]; [lia|].
  cbn [LowLevelScanner_iterate]. unfold bind at 1. rewrite next_live.
  destruct (@scan_settled fuel it Hs Hf) as (it' & Hscan & Hs' & Hu').
  rewrite Hscan.
  destruct (unread it) as [|c s] eqn:Eu.
  - rewrite firstToken_nil. cbn [fst ll_type]. unfold bind.
    destruct steps as [|steps]; [lia|].
    cbn [LowLevelScanner_iterate]. unfold bind.
    rewrite next_closed by reflexivity. reflexivity.
  - rewrite lex_cons.
    pose proof (firstToken_cons c s) as [Hty Hl].
    assert (Hrec : LowLevelScanner_iterate fuel steps (live it') =
                   Ok (lex n (snd (firstToken (c :: s))), closed)).
    { rewrite <- Hu'. apply IH; [exact Hs'| | |lia]; rewrite Hu'; simpl in *; lia. }
    destruct (ll_type (fst (firstToken (c :: s)))); try contradiction;
      unfold bind; rewrite Hrec; reflexivity.
Qed.

Lemma lowLevelTokens_lex (s : jsstring) :
  lowLevelTokens s = Ok (lex (S (List.length s)) s).
Proof.
  unfold lowLevelTokens. change (LLS.new s) with (live (BSI.new s)).
  rewrite (@LowLevelScanner_iterate_lex (S (List.length s)) (BSI.new s));
    [reflexivity|exact I| | |]; cbn [unread BSI.new BSI._prev BSI._iter]; lia.
Qed.

Lemma yieldedFor_createHighLevelToken (tok : LowLevelToken) :
  ll_value tok <> None ->
  createHighLevelToken tok = Ok (match createHighLevelToken tok with
                                 | Ok l => l
                                 | _ => []
                                 end).
Proof.
  intros H. destruct (createHighLevelToken_ok tok H) as [l ->]. reflexivity.
Qed.

Lemma firstToken_value (c : code_unit) (s : jsstring) :
  ll_value (fst (firstToken (c :: s))) <> None.
Proof.
  unfold firstToken.
  destruct (StringIterator_next (c :: s)) as [[char|] s1] eqn:E.
  - destruct (isWhiteSpace char); [discriminate|].
    destruct (isOperatorFragment char); [|discriminate].
    destruct (StringIterator_next s1) as [[v|] s2]; [|discriminate].
    destruct (negb (isOperatorFragment v)); [discriminate|].
    destruct (negb (strictEqual char v)); discriminate.
  - apply StringIterator_next_done in E. destruct E; discriminate.
Qed.

(** The loop of [tokenizeHighLevel] yields, token by token, what
    [yieldedFor] tells. *)
Lemma tokenizeHighLevel_loop_lex (n : nat) :
  forall (it : BSI.t) (fuel steps : nat),
    settled it ->
    List.length (unread it) < n ->
    List.length (unread it) < fuel ->
    n <= steps ->
    tokenizeHighLevel_loop fuel steps (live it) =
    Ok (flat_map yieldedFor (lex n (unread it)), closed).
Proof.
  induction n as [|n IH]; intros it fuel steps Hs Hn Hf Hsteps; [lia|].
  destruct steps as [|steps]; [lia|].
  rewrite tokenizeHighLevel_loop_turn.
  destruct (@scan_settled fuel it Hs Hf) as (it' & Hscan & Hs' & Hu').
  rewrite Hscan.
  destruct (unread it) as [|c s] eqn:Eu.
  - rewrite firstToken_nil. reflexivity.
  - rewrite lex_cons. cbn [flat_map].
    pose proof (firstToken_cons c s) as [Hty Hl].
    pose proof (firstToken_value c s) as Hval.
    assert (Hrec : tokenizeHighLevel_loop fuel steps (live it') =
                   Ok (flat_map yieldedFor (lex n (snd (firstToken (c :: s)))), closed)).
    { rewrite <- Hu'. apply IH; [exact Hs'| | |lia]; rewrite Hu'; simpl in *; lia. }
    unfold yieldedFor at 1.
    destruct (ll_type (fst (firstToken (c :: s)))); try contradiction;
      try (rewrite Hrec; reflexivity).
    rewrite (yieldedFor_createHighLevelToken _ Hval), Hrec. reflexivity.
Qed.

Lemma tokenizeHighLevel_lex (s : jsstring) :
  tokenizeHighLevel s = Ok (flat_map yieldedFor (lex (S (List.length s)) s)).
Proof.
  unfold tokenizeHighLevel, tokenizeHighLevel_fuel.
  change (LLS.new s) with (live (BSI.new s)).
  rewrite (@tokenizeHighLevel_loop_lex (S (List.length s)) (BSI.new s));
    [reflexivity|exact I| | |]; cbn [unread BSI.new BSI._prev BSI._iter]; lia.
Qed.

(* ------------------------------------------------------------------ *)
(** ** What the tokens of a text look like *)

Lemma firstToken_wellFormed (s : jsstring) :
  wellFormedToken (fst (firstToken s)) = true.
Proof.
  unfold firstToken.
  destruct (StringIterator_next s) as [[char|] s1] eqn:E; [|reflexivity].
  destruct (isWhiteSpace char) eqn:Hws.
  - destruct (isWhiteSpace_char _ E Hws) as (c & -> & Hc).
    cbn [fst wellFormedToken ll_type ll_value app strictEqual negb andb forallb].
    rewrite Hc. apply takeWhile_forallb.
  - destruct (isOperatorFragment char) eqn:Hop.
    + assert (Hinv : wellFormedToken (mkLowLevelToken Invalid (Some char)) = true)
        by exact Hop.
      destruct (StringIterator_next s1) as [[v|] s2]; [|exact Hinv].
      destruct (negb (isOperatorFragment v)); [exact Hinv|].
      destruct (strictEqual char v) eqn:Heq; cbn [negb]; [|exact Hinv].
      apply strictEqual_eq in Heq. subst v.
      unfold isOperatorFragment in Hop. apply orb_true_iff in Hop.
      destruct Hop as [H|H]; apply strictEqual_eq in H; subst; reflexivity.
    + cbn [fst wellFormedToken ll_type ll_value].
      assert (Hrun : existsb isWhiteSpaceCodeUnit
                       (char ++ takeWhile notWhiteSpaceCodeUnit s1) = false).
      { rewrite existsb_app. apply orb_false_iff. split; [exact Hws|].
        apply forallb_notWhiteSpace_existsb, takeWhile_forallb. }
      unfold isIdentifierText. rewrite Hrun.
      destruct (StringIterator_next_char _ E) as [[c ->]|(c & d & -> & Hc & Hd)];
        cbn [app].
      * rewrite isOperatorFragment_unit in Hop.
        unfold isOperatorFragmentCodeUnit in Hop. apply orb_false_iff in Hop.
        destruct Hop as [-> ->]. reflexivity.
      * pose proof (isLeadingSurrogate_not_fragment _ Hc) as Hf.
        unfold isOperatorFragmentCodeUnit in Hf. apply orb_false_iff in Hf.
        destruct Hf as [-> ->]. reflexivity.
Qed.

Lemma lex_wellFormed (n : nat) :
  forall s : jsstring, forallb wellFormedToken (lex n s) = true.
Proof.
  induction n as [|n IH]; intros s; [reflexivity|].
  destruct s as [|c s]; [reflexivity|].
  rewrite lex_cons. cbn [forallb]. rewrite firstToken_wellFormed, IH. reflexivity.
Qed.

(** The text of the tokens of a text, [Eof] left out. *)
Lemma lex_shape (n : nat) :
  forall s : jsstring,
    List.length s < n ->
    exists l,
      lex n s = l ++ [mkLowLevelToken LEof None] /\
      Forall (fun tok => ll_type tok <> LEof) l /\
      List.length l <= List.length s.
Proof.
  induction n as [|n IH]; intros s Hn; [lia|].
  destruct s as [|c s].
  - exists []. split; [reflexivity|]. split; [constructor|simpl; lia].
  - rewrite lex_cons. pose proof (firstToken_cons c s) as [Hty Hl].
    destruct (IH (snd (firstToken (c :: s)))) as (l & -> & Hall & Hlen);
      [simpl in *; lia|].
    exists (fst (firstToken (c :: s)) :: l). split; [reflexivity|].
    split; [constructor; assumption|simpl in *; lia].
Qed.

(** Where [_scan] stops a run of white space and a run of identifier
    characters. *)
Lemma firstToken_rest (s : jsstring) :
  (ll_type (fst (firstToken s)) = WhiteSpace ->
   match snd (firstToken s) with
   | [] => True
   | x :: _ => isWhiteSpaceCodeUnit x = false
   end) /\
  (ll_type (fst (firstToken s)) = Identifier ->
   match snd (firstToken s) with
   | [] => True
   | x :: _ => isWhiteSpaceCodeUnit x = true
   end).
Proof.
  unfold firstToken.
  destruct (StringIterator_next s) as [[char|] s1] eqn:E;
    [|split; intros _; exact I].
  destruct (isWhiteSpace char) eqn:Hws; cbn [fst snd ll_type].
  - split; [intros _|intros H; discriminate H].
    destruct (dropWhile isWhiteSpaceCodeUnit s1) as [|x r] eqn:Ed; [exact I|].
    exact (dropWhile_head _ _ Ed).
  - destruct (isOperatorFragment char).
    + destruct (StringIterator_next s1) as [[v|] s2];
        [|split; intros H; discriminate H].
      destruct (negb (isOperatorFragment v)); [split; intros H; discriminate H|].
      destruct (negb (strictEqual char v)); split; intros H; discriminate H.
    + cbn [fst snd ll_type]. split; [intros H; discriminate H|intros _].
      destruct (dropWhile notWhiteSpaceCodeUnit s1) as [|x r] eqn:Ed; [exact I|].
      pose proof (dropWhile_head _ _ Ed) as Hx.
      unfold notWhiteSpaceCodeUnit in Hx. apply negb_false_iff in Hx. exact Hx.
Qed.

Lemma firstToken_whiteSpace (x : code_unit) (r : jsstring) :
  isWhiteSpaceCodeUnit x = true ->
  firstToken (x :: r) =
  (mkLowLevelToken WhiteSpace (Some (x :: takeWhile isWhiteSpaceCodeUnit r)),
   dropWhile isWhiteSpaceCodeUnit r).
Proof.
  intros Hx. unfold firstToken.
  rewrite (StringIterator_next_whiteSpace x r Hx).
  unfold isWhiteSpace. cbn [existsb]. rewrite Hx. reflexivity.
Qed.

Lemma firstToken_not_whiteSpace (x : code_unit) (r : jsstring) :
  isWhiteSpaceCodeUnit x = false ->
  ll_type (fst (firstToken (x :: r))) <> WhiteSpace.
Proof.
  intros Hx. unfold firstToken.
  destruct (StringIterator_next (x :: r)) as [[v|] r1] eqn:E1;
    [|intros H; discriminate H].
  destruct (isWhiteSpace v) eqn:Hv.
  - destruct (isWhiteSpace_char _ E1 Hv) as (c' & -> & Hc').
    apply StringIterator_next_value in E1. destruct E1 as [E1 _].
    inversion E1; subst. congruence.
  - destruct (isOperatorFragment v); [|intros H; discriminate H].
    destruct (StringIterator_next r1) as [[v2|] r2]; [|intros H; discriminate H].
    destruct (negb (isOperatorFragment v2)); [intros H; discriminate H|].
    destruct (negb (strictEqual v v2)); intros H; discriminate H.
Qed.

(** What follows a [WhiteSpace] and what follows an [Identifier]. *)
Lemma firstToken_next (s : jsstring) :
  (ll_type (fst (firstToken s)) = WhiteSpace ->
   ll_type (fst (firstToken (snd (firstToken s)))) <> WhiteSpace) /\
  (ll_type (fst (firstToken s)) = Identifier ->
   ll_type (fst (firstToken (snd (firstToken s)))) = WhiteSpace \/
   ll_type (fst (firstToken (snd (firstToken s)))) = LEof).
Proof.
  pose proof (firstToken_rest s) as [Hw Hi].
  split; intros H.
  - specialize (Hw H). destruct (snd (firstToken s)) as [|x r].
    + rewrite firstToken_nil. intros E. discriminate E.
    + apply firstToken_not_whiteSpace. exact Hw.
  - specialize (Hi H). destruct (snd (firstToken s)) as [|x r].
    + right. reflexivity.
    + left. rewrite (firstToken_whiteSpace x r Hi). reflexivity.
Qed.

Lemma lex_head (n : nat) (s : jsstring) :
  hd_error (lex (S n) s) = Some (fst (firstToken s)).
Proof.
  destruct s as [|c s]; [reflexivity|]. rewrite lex_cons. reflexivity.
Qed.

Lemma lex_adjacent (n : nat) :
  forall (s : jsstring) (i : nat) (t1 t2 : LowLevelToken),
    nth_error (lex n s) i = Some t1 ->
    nth_error (lex n s) (S i) = Some t2 ->
    (ll_type t1 = WhiteSpace -> ll_type t2 <> WhiteSpace) /\
    (ll_type t1 = Identifier -> ll_type t2 = WhiteSpace \/ ll_type t2 = LEof).
Proof.
  induction n as [|n IH]; intros s i t1 t2 H1 H2; [destruct i; discriminate|].
  destruct s as [|c s].
  - rewrite lex_nil in H2. destruct i; discriminate.
  - rewrite lex_cons in H1, H2. destruct i as [|i].
    + cbn [nth_error] in H1, H2. inversion H1; subst t1. clear H1.
      destruct n as [|n]; [discriminate|].
      pose proof (lex_head n (snd (firstToken (c :: s)))) as Hh.
      destruct (lex (S n) (snd (firstToken (c :: s)))) as [|t l];
        [discriminate|].
      cbn in Hh, H2. assert (t2 = fst (firstToken (snd (firstToken (c :: s)))))
        by congruence. subst t2. apply firstToken_next.
    + cbn [nth_error] in H1, H2. exact (IH _ i t1 t2 H1 H2).
Qed.

(** No token has more text than [_scan] has read for it; but for an
    [Invalid] token, the scan has read no more. *)
Lemma firstToken_text (s : jsstring) :
  List.length (textOf (fst (firstToken s))) + List.length (snd (firstToken s))
    <= List.length s /\
  (ll_type (fst (firstToken s)) <> Invalid ->
   s = textOf (fst (firstToken s)) ++ snd (firstToken s)).
Proof.
  unfold firstToken.
  destruct (StringIterator_next s) as [[char|] s1] eqn:E.
  - pose proof (StringIterator_next_value _ E) as [Es _].
    destruct (isWhiteSpace char); cbn [fst snd textOf ll_value ll_type].
    + assert (Heq : s = (char ++ takeWhile isWhiteSpaceCodeUnit s1) ++
                        dropWhile isWhiteSpaceCodeUnit s1).
      { rewrite <- app_assoc, takeWhile_dropWhile. exact Es. }
      split; [|intros _; exact Heq].
      apply (f_equal (@List.length code_unit)) in Heq.
      rewrite length_app in Heq. lia.
    + destruct (isOperatorFragment char).
      * destruct (StringIterator_next s1) as [[v|] s2] eqn:E2.
        -- pose proof (StringIterator_next_value _ E2) as [Es2 _].
           destruct (negb (isOperatorFragment v));
             cbn [fst snd textOf ll_value ll_type].
           ++ split; [|intros H; contradiction H; reflexivity].
              rewrite Es, Es2, !length_app. lia.
           ++ destruct (negb (strictEqual char v));
                cbn [fst snd textOf ll_value ll_type].
              ** split; [|intros H; contradiction H; reflexivity].
                 rewrite Es, !length_app. lia.
              ** assert (Heq : s = (char ++ v) ++ s2)
                   by (rewrite <- app_assoc, <- Es2; exact Es).
                 split; [|intros _; exact Heq].
                 apply (f_equal (@List.length code_unit)) in Heq.
                 rewrite length_app in Heq. lia.
        -- cbn [fst snd textOf ll_value ll_type].
           split; [|intros H; contradiction H; reflexivity].
           rewrite Es, !length_app. simpl. lia.
      * cbn [fst snd textOf ll_value ll_type].
        assert (Heq : s = (char ++ takeWhile notWhiteSpaceCodeUnit s1) ++
                          dropWhile notWhiteSpaceCodeUnit s1).
        { rewrite <- app_assoc, takeWhile_dropWhile. exact Es. }
        split; [|intros _; exact Heq].
        apply (f_equal (@List.length code_unit)) in Heq.
        rewrite length_app in Heq. lia.
  - apply StringIterator_next_done in E. destruct E as [-> _].
    split; [simpl; lia|reflexivity].
Qed.

Lemma lex_text (n : nat) :
  forall s : jsstring,
    List.length s < n ->
    List.length (concat (map textOf (lex n s))) <= List.length s /\
    (existsb isInvalid (lex n s) = false -> concat (map textOf (lex n s)) = s).
Proof.
  induction n as [|n IH]; intros s Hn; [lia|].
  destruct s as [|c s]; [split; [simpl; lia|reflexivity]|].
  rewrite lex_cons. cbn [map concat existsb].
  pose proof (firstToken_cons c s) as [_ Hl].
  pose proof (firstToken_text (c :: s)) as [Hlen Heq].
  destruct (IH (snd (firstToken (c :: s)))) as [IHlen IHeq]; [simpl in *; lia|].
  split.
  - rewrite length_app. lia.
  - intros H. apply orb_false_iff in H. destruct H as [Hinv Hrest].
    rewrite (IHeq Hrest). symmetry. apply Heq.
    unfold isInvalid in Hinv. intros E. rewrite E in Hinv. discriminate.
Qed.

Lemma firstToken_suffix (s : jsstring) :
  exists p, s = p ++ snd (firstToken s).
Proof.
  unfold firstToken.
  destruct (StringIterator_next s) as [[char|] s1] eqn:E.
  - pose proof (StringIterator_next_value _ E) as [Es _].
    destruct (isWhiteSpace char); cbn [snd].
    + exists (char ++ takeWhile isWhiteSpaceCodeUnit s1).
      rewrite <- app_assoc, takeWhile_dropWhile. exact Es.
    + destruct (isOperatorFragment char).
      * destruct (StringIterator_next s1) as [[v|] s2] eqn:E2.
        -- pose proof (StringIterator_next_value _ E2) as [Es2 _].
           assert (Heq : s = (char ++ v) ++ s2)
             by (rewrite <- app_assoc, <- Es2; exact Es).
           destruct (negb (isOperatorFragment v)); cbn [snd]; [eauto|].
           destruct (negb (strictEqual char v)); cbn [snd]; eauto.
        -- cbn [snd]. exists s. rewrite app_nil_r. reflexivity.
      * cbn [snd]. exists (char ++ takeWhile notWhiteSpaceCodeUnit s1).
        rewrite <- app_assoc, takeWhile_dropWhile. exact Es.
  - exists s. rewrite app_nil_r. reflexivity.
Qed.

Lemma yieldedFor_length (tok : LowLevelToken) :
  wellFormedToken tok = true ->
  List.length (yieldedFor tok) <= List.length (textOf tok).
Proof.
  unfold wellFormedToken, yieldedFor, textOf, createHighLevelToken.
  destruct tok as [ty [v|]]; cbn [ll_type ll_value];
    destruct ty; intros H; try discriminate H; try (simpl; lia).
  destruct (strictEqual v str_r_question) eqn:E1;
    [apply strictEqual_eq in E1; subst; simpl; lia|].
  destruct (strictEqual v str_r_minus) eqn:E2;
    [apply strictEqual_eq in E2; subst; simpl; lia|].
  destruct (strictEqual v str_r_plus) eqn:E3;
    [apply strictEqual_eq in E3; subst; simpl; lia|].
  destruct v as [|c v]; [discriminate H|].
  destruct (startsWith_at (c :: v)); simpl; lia.
Qed.

Lemma yieldedFor_wellFormed (tok : LowLevelToken) :
  wellFormedToken tok = true ->
  forallb wellFormedHighLevelToken (yieldedFor tok) = true.
Proof.
  unfold wellFormedToken, yieldedFor, createHighLevelToken.
  destruct tok as [ty [v|]]; cbn [ll_type ll_value];
    destruct ty; intros H; try discriminate H; try reflexivity.
  destruct (strictEqual v str_r_question); [reflexivity|].
  destruct (strictEqual v str_r_minus); [reflexivity|].
  destruct (strictEqual v str_r_plus); [reflexivity|].
  destruct v as [|c v]; [discriminate H|].
  unfold isIdentifierText in H.
  apply andb_true_iff in H. destruct H as [_ H]. apply negb_true_iff in H.
  cbn [existsb] in H. apply orb_false_iff in H. destruct H as [_ Hv].
  unfold startsWith_at, replace_leading_at.
  destruct (N.eqb c 64); [|reflexivity].
  cbn [forallb wellFormedHighLevelToken type value]. rewrite Hv. reflexivity.
Qed.

(* ------------------------------------------------------------------ *)
(** ** The low-level tokens of a string *)

(** X1.  The value of every token the scanner produces fits its type: a run
    of white-space code units for [WhiteSpace]; a white-space-free text that
    does not start with ["|"] or ["&"] for [Identifier]; ["||"] or ["&&"] for
    [Operator]; ["|"] or ["&"] for [Invalid]; [null] for [Eof]; none is
    empty. *)
Theorem lowLevelTokens_wellFormed (s : jsstring) :
  exists tokens : list LowLevelToken,
    lowLevelTokens s = Ok tokens /\ forallb wellFormedToken tokens = true.
Proof.
  eexists. split; [apply lowLevelTokens_lex|apply lex_wellFormed].
Qed.

(** X2.  An iteration over the scanner of any string ends: it visits at most
    one token per code unit of the string, none of them [Eof], then one
    [Eof] token, and nothing after it. *)
Theorem lowLevelTokens_end_with_Eof (s : jsstring) :
  exists l : list LowLevelToken,
    lowLevelTokens s = Ok (l ++ [mkLowLevelToken LEof None]) /\
    Forall (fun tok => ll_type tok <> LEof) l /\
    List.length l <= List.length s.
Proof.
  destruct (@lex_shape (S (List.length s)) s) as (l & Hl & Hall & Hlen); [lia|].
  exists l. rewrite lowLevelTokens_lex, Hl. auto.
Qed.

(** X3.  Runs are maximal: a [WhiteSpace] token is never followed by another
    [WhiteSpace] token, and an [Identifier] token is followed by a
    [WhiteSpace] token or by [Eof] only. *)
Theorem lowLevelTokens_maximal_munch
    (s : jsstring) (tokens : list LowLevelToken) (i : nat) (t1 t2 : LowLevelToken) :
  lowLevelTokens s = Ok tokens ->
  nth_error tokens i = Some t1 ->
  nth_error tokens (S i) = Some t2 ->
  (ll_type t1 = WhiteSpace -> ll_type t2 <> WhiteSpace) /\
  (ll_type t1 = Identifier -> ll_type t2 = WhiteSpace \/ ll_type t2 = LEof).
Proof.
  rewrite lowLevelTokens_lex. intros H H1 H2.
  assert (Ht : tokens = lex (S (List.length s)) s) by congruence.
  rewrite Ht in H1, H2.
  exact (@lex_adjacent (S (List.length s)) s i t1 t2 H1 H2).
Qed.

Lemma lowLevelTokens_maximal_munch_witness :
  (WhiteSpace = WhiteSpace -> Identifier <> WhiteSpace) /\
  (WhiteSpace = Identifier -> Identifier = WhiteSpace \/ Identifier = LEof).
Proof.
  apply (@lowLevelTokens_maximal_munch (js "r+  @bob")
           [mkLowLevelToken Identifier (Some (js "r+"));
            mkLowLevelToken WhiteSpace (Some (js "  "));
            mkLowLevelToken Identifier (Some (js "@bob"));
            mkLowLevelToken LEof None]
           1
           (mkLowLevelToken WhiteSpace (Some (js "  ")))
           (mkLowLevelToken Identifier (Some (js "@bob"))));
    reflexivity.
Defined.

(** X4.  The scanner invents no text: the values of the tokens of a string,
    put end to end, are no longer than the string; and when no token is
    [Invalid] they are the string itself. *)
Theorem lowLevelTokens_text (s : jsstring) :
  exists tokens : list LowLevelToken,
    lowLevelTokens s = Ok tokens /\
    List.length (concat (map textOf tokens)) <= List.length s /\
    (existsb isInvalid tokens = false -> concat (map textOf tokens) = s).
Proof.
  eexists. split; [apply lowLevelTokens_lex|]. apply lex_text. lia.
Qed.

Lemma lowLevelTokens_text_witness :
  exists tokens : list LowLevelToken,
    lowLevelTokens (js "a|b  r+ &&") = Ok tokens /\
    concat (map textOf tokens) = js "a|b  r+ &&".
Proof.
  destruct (lowLevelTokens_text (js "a|b  r+ &&")) as (tokens & H & _ & Heq).
  exists tokens. split; [exact H|]. apply Heq.
  vm_compute in H. inversion H. reflexivity.
Defined.

(** X5.  [tokenizeHighLevel] yields, for the [Identifier] tokens of the
    scanner and in their order, what [createHighLevelToken] yields for each,
    and nothing for any other token. *)
Theorem tokenizeHighLevel_of_lowLevelTokens (s : jsstring) :
  exists tokens : list LowLevelToken,
    lowLevelTokens s = Ok tokens /\
    tokenizeHighLevel s = Ok (flat_map yieldedFor tokens).
Proof.
  eexists. split; [apply lowLevelTokens_lex|apply tokenizeHighLevel_lex].
Qed.

(** X6.  After its first token the scanner goes on as a new scanner would on
    the text still unread: the tokens of a non-empty string are a token
    other than [Eof], then the tokens of a proper suffix of the string. *)
Theorem lowLevelTokens_restart (c : code_unit) (s : jsstring) :
  exists (tok : LowLevelToken) (p r : jsstring) (rest : list LowLevelToken),
    lowLevelTokens (c :: s) = Ok (tok :: rest) /\
    ll_type tok <> LEof /\
    c :: s = p ++ r /\ p <> [] /\
    lowLevelTokens r = Ok rest.
Proof.
  pose proof (firstToken_cons c s) as [Hty Hl].
  destruct (firstToken_suffix (c :: s)) as [p Hp].
  exists (fst (firstToken (c :: s))), p, (snd (firstToken (c :: s))),
    (lex (S (List.length (snd (firstToken (c :: s))))) (snd (firstToken (c :: s)))).
  rewrite !lowLevelTokens_lex, lex_cons.
  split; [|split; [exact Hty|split; [exact Hp|split; [|reflexivity]]]].
  - f_equal. f_equal. apply lex_stable; simpl in *; lia.
  - intros ->. simpl in Hp. rewrite <- Hp in Hl. lia.
Qed.

(* ------------------------------------------------------------------ *)
(** ** The semantic tokens of a string *)

Lemma flat_map_yieldedFor_length (l : list LowLevelToken) :
  forallb wellFormedToken l = true ->
  List.length (flat_map yieldedFor l) <= List.length (concat (map textOf l)).
Proof.
  induction l as [|tok l IH]; intros H; [simpl; lia|].
  cbn [forallb] in H. apply andb_true_iff in H. destruct H as [Ht Hl].
  cbn [flat_map map concat]. rewrite !length_app.
  pose proof (yieldedFor_length tok Ht). specialize (IH Hl). lia.
Qed.

(** X7.  A string never yields more semantic tokens than it has code
    units. *)
Theorem tokenizeHighLevel_length (s : jsstring) :
  exists tokens : list HighLevelToken,
    tokenizeHighLevel s = Ok tokens /\ List.length tokens <= List.length s.
Proof.
  eexists. split; [apply tokenizeHighLevel_lex|].
  pose proof (flat_map_yieldedFor_length _ (lex_wellFormed (S (List.length s)) s)).
  destruct (@lex_text (S (List.length s)) s) as [Hlen _]; lia.
Qed.

(** X8.  Of the semantic tokens of a string, a [UserName] carries a string
    free of white space, and every other token carries [null]. *)
Theorem tokenizeHighLevel_values (s : jsstring) :
  exists tokens : list HighLevelToken,
    tokenizeHighLevel s = Ok tokens /\
    forallb wellFormedHighLevelToken tokens = true.
Proof.
  eexists. split; [apply tokenizeHighLevel_lex|].
  pose proof (lex_wellFormed (S (List.length s)) s) as H.
  induction (lex (S (List.length s)) s) as [|tok l IH]; [reflexivity|].
  cbn [forallb] in H. apply andb_true_iff in H. destruct H as [Ht Hl].
  cbn [flat_map]. rewrite forallb_app, (yieldedFor_wellFormed tok Ht), IH by exact Hl.
  reflexivity.
Qed.

(* ------------------------------------------------------------------ *)
(** ** White space separates *)

Lemma tokenizeHighLevel_semantics (s : jsstring) :
  tokenizeHighLevel s = Ok (semantics s).
Proof. apply tokenizeHighLevel_lex. Qed.

Lemma semantics_cons (c : code_unit) (s : jsstring) :
  semantics (c :: s) =
  yieldedFor (fst (firstToken (c :: s))) ++ semantics (snd (firstToken (c :: s))).
Proof.
  unfold semantics. rewrite lex_cons. cbn [flat_map]. f_equal. f_equal.
  pose proof (firstToken_cons c s) as [_ Hl].
  apply lex_stable; simpl in *; lia.
Qed.

Lemma semantics_dropWhile (s : jsstring) :
  semantics (dropWhile isWhiteSpaceCodeUnit s) = semantics s.
Proof.
  destruct s as [|c s]; [reflexivity|]. cbn [dropWhile].
  destruct (isWhiteSpaceCodeUnit c) eqn:Hc; [|reflexivity].
  rewrite semantics_cons, (firstToken_whiteSpace c s Hc). reflexivity.
Qed.

Lemma semantics_whiteSpace (w : code_unit) (s : jsstring) :
  isWhiteSpaceCodeUnit w = true -> semantics (w :: s) = semantics s.
Proof.
  intros Hw. rewrite <- (semantics_dropWhile (w :: s)). cbn [dropWhile].
  rewrite Hw. apply semantics_dropWhile.
Qed.

Lemma takeWhile_app_stop (A : Type) (f : A -> bool) (x : list A) (w : A) (y : list A) :
  f w = false -> takeWhile f (x ++ w :: y) = takeWhile f x.
Proof.
  intros Hw. induction x as [|a x IH]; simpl; [rewrite Hw; reflexivity|].
  destruct (f a); [rewrite IH|]; reflexivity.
Qed.

Lemma dropWhile_app_stop (A : Type) (f : A -> bool) (x : list A) (w : A) (y : list A) :
  f w = false -> dropWhile f (x ++ w :: y) = dropWhile f x ++ w :: y.
Proof.
  intros Hw. induction x as [|a x IH]; simpl; [rewrite Hw; reflexivity|].
  destruct (f a); [rewrite IH|]; reflexivity.
Qed.

Lemma dropWhile_app_go (A : Type) (f : A -> bool) (x : list A) (w : A) (y : list A) :
  f w = true ->
  dropWhile f (x ++ w :: y) =
  match dropWhile f x with
  | [] => dropWhile f y
  | r => r ++ w :: y
  end.
Proof.
  intros Hw. induction x as [|a x IH]; simpl; [rewrite Hw; reflexivity|].
  destruct (f a); [exact IH|reflexivity].
Qed.

(** The first token of a text followed by white space. *)
Lemma firstToken_app_whiteSpace (c : code_unit) (a : jsstring) (w : code_unit) (b : jsstring) :
  isWhiteSpaceCodeUnit w = true ->
  yieldedFor (fst (firstToken ((c :: a) ++ w :: b))) =
    yieldedFor (fst (firstToken (c :: a))) /\
  (snd (firstToken ((c :: a) ++ w :: b)) = snd (firstToken (c :: a)) ++ w :: b \/
   snd (firstToken (c :: a)) = [] /\
   (snd (firstToken ((c :: a) ++ w :: b)) = b \/
    snd (firstToken ((c :: a) ++ w :: b)) = dropWhile isWhiteSpaceCodeUnit b)).
Proof.
  intros Hw.
  pose proof (isWhiteSpaceCodeUnit_not_trailing _ Hw) as Htrail.
  unfold firstToken.
  destruct (StringIterator_next (c :: a)) as [[char|] a1] eqn:E.
  2:{ apply StringIterator_next_done in E. destruct E; discriminate. }
  rewrite (@StringIterator_next_app _ _ _ w b E Htrail).
  destruct (isWhiteSpace char).
  - cbn [fst snd]. split; [reflexivity|].
    rewrite (@dropWhile_app_go _ _ a1 w b Hw).
    destruct (dropWhile isWhiteSpaceCodeUnit a1); auto.
  - destruct (isOperatorFragment char).
    + destruct (StringIterator_next a1) as [[v|] a2] eqn:E2.
      * rewrite (@StringIterator_next_app _ _ _ w b E2 Htrail).
        destruct (negb (isOperatorFragment v)); cbn [fst snd]; [auto|].
        destruct (negb (strictEqual char v)); cbn [fst snd]; auto.
      * apply StringIterator_next_done in E2. destruct E2 as [-> _].
        cbn [app]. rewrite (StringIterator_next_whiteSpace w b Hw).
        rewrite isOperatorFragment_unit, (isWhiteSpaceCodeUnit_not_fragment _ Hw).
        cbn [negb fst snd]. auto.
    + assert (Hnw : notWhiteSpaceCodeUnit w = false)
        by (unfold notWhiteSpaceCodeUnit; rewrite Hw; reflexivity).
      cbn [fst snd].
      rewrite (@takeWhile_app_stop _ _ a1 w b Hnw), (@dropWhile_app_stop _ _ a1 w b Hnw).
      auto.
Qed.

Lemma semantics_app_whiteSpace (n : nat) :
  forall (a : jsstring) (w : code_unit) (b : jsstring),
    List.length a < n ->
    isWhiteSpaceCodeUnit w = true ->
    semantics (a ++ w :: b) = semantics a ++ semantics b.
Proof.
  induction n as [|n IH]; intros a w b Hn Hw; [lia|].
  destruct a as [|c a].
  - cbn [app]. apply semantics_whiteSpace. exact Hw.
  - pose proof (firstToken_cons c a) as [_ Hl].
    destruct (@firstToken_app_whiteSpace c a w b Hw) as [Hy Hr].
    rewrite (semantics_cons c a). change ((c :: a) ++ w :: b) with (c :: (a ++ w :: b)) in *.
    rewrite (semantics_cons c (a ++ w :: b)), Hy, <- app_assoc. f_equal.
    destruct Hr as [-> | [Hnil [-> | ->]]].
    + apply IH; [simpl in *; lia|exact Hw].
    + rewrite Hnil. reflexivity.
    + rewrite Hnil. apply semantics_dropWhile.
Qed.

Lemma semantics_app_run (sep : jsstring) :
  forall a b : jsstring,
    sep <> [] ->
    forallb isWhiteSpaceCodeUnit sep = true ->
    semantics (a ++ sep ++ b) = semantics a ++ semantics b.
Proof.
  induction sep as [|w sep IH]; intros a b Hne Hall; [contradiction|].
  cbn [forallb] in Hall. apply andb_true_iff in Hall. destruct Hall as [Hw Hsep].
  cbn [app].
  rewrite (@semantics_app_whiteSpace (S (List.length a)) a w (sep ++ b)) by (lia || exact Hw).
  f_equal. destruct sep as [|w' sep']; [reflexivity|].
  apply (IH [] b); [discriminate|exact Hsep].
Qed.

(** X9.  White space separates: the semantic tokens of two strings joined
    by a non-empty run of white space are those of the first followed by
    those of the second; hence leading and trailing white space change
    nothing. *)
Theorem tokenizeHighLevel_app (a sep b : jsstring) :
  sep <> [] ->
  forallb isWhiteSpaceCodeUnit sep = true ->
  exists ta tb : list HighLevelToken,
    tokenizeHighLevel a = Ok ta /\
    tokenizeHighLevel b = Ok tb /\
    tokenizeHighLevel (a ++ sep ++ b) = Ok (ta ++ tb) /\
    tokenizeHighLevel (sep ++ b) = Ok tb /\
    tokenizeHighLevel (a ++ sep) = Ok ta.
Proof.
  intros Hne Hall. exists (semantics a), (semantics b).
  rewrite !tokenizeHighLevel_semantics.
  split; [reflexivity|]. split; [reflexivity|].
  split; [rewrite (@semantics_app_run sep a b Hne Hall); reflexivity|].
  split.
  - rewrite (@semantics_app_run sep [] b Hne Hall : semantics (sep ++ b) = semantics b).
    reflexivity.
  - rewrite <- (app_nil_r sep) at 1.
    rewrite (@semantics_app_run sep a [] Hne Hall), app_nil_r. reflexivity.
Qed.

Lemma tokenizeHighLevel_app_witness :
  exists ta tb : list HighLevelToken,
    tokenizeHighLevel (js "x |") = Ok ta /\
    tokenizeHighLevel (js "r+ @bob") = Ok tb /\
    tokenizeHighLevel (js "x |" ++ [0x20; 0x0A]%N ++ js "r+ @bob") = Ok (ta ++ tb) /\
    tokenizeHighLevel ([0x20; 0x0A]%N ++ js "r+ @bob") = Ok tb /\
    tokenizeHighLevel (js "x |" ++ [0x20; 0x0A]%N) = Ok ta.
Proof.
  apply (@tokenizeHighLevel_app (js "x |") [0x20; 0x0A]%N (js "r+ @bob"));
    [discriminate|reflexivity].
Defined.

(* ------------------------------------------------------------------ *)
(** ** Iterating over the characters *)

Lemma BackableStringIterator_iterate_unread (steps : nat) (it : BSI.t) :
  settled it ->
  BackableStringIterator_iterate steps it =
  BackableStringIterator_iterate steps (BSI.new (unread it)).
Proof.
  intros H. destruct steps as [|steps]; [reflexivity|].
  cbn [BackableStringIterator_iterate]. unfold bind.
  rewrite (BSI_next_unread it H). reflexivity.
Qed.

Lemma BackableStringIterator_iterate_all (steps : nat) :
  forall s : jsstring,
    List.length s < steps ->
    exists chars,
      BackableStringIterator_iterate steps (BSI.new s) = Ok (chars, exhausted) /\
      concat chars = s /\
      Forall (fun c => List.length c = 1 \/ List.length c = 2) chars.
Proof.
  induction steps as [|steps IH]; intros s Hlen; [lia|].
  cbn [BackableStringIterator_iterate]. unfold bind.
  rewrite BSI_next_fresh by reflexivity. cbn [BSI.new BSI._iter].
  destruct (StringIterator_next s) as [[v|] s'] eqn:E; cbn [fst snd].
  - pose proof (StringIterator_next_value _ E) as [Es Hne].
    destruct (IH s') as (chars & Hrun & Hcat & Hall).
    { rewrite Es, length_app in Hlen. destruct v; [contradiction|simpl in Hlen; lia]. }
    rewrite (@BackableStringIterator_iterate_unread steps (BSI.mk s' (Some v) None))
      by exact I.
    change (unread (BSI.mk s' (Some v) None)) with s'. rewrite Hrun.
    exists (v :: chars). split; [reflexivity|]. split.
    + cbn [concat]. rewrite Hcat. auto.
    + constructor; [|exact Hall].
      destruct (StringIterator_next_char _ E) as [[c ->]|(c & d & -> & _)]; auto.
  - apply StringIterator_next_done in E. destruct E as [-> ->].
    exists []. split; [reflexivity|]. split; [reflexivity|constructor].
Qed.

(** X10.  An iteration over a new [BackableStringIterator] visits characters
    of one or two code units that, put end to end, are the string, and
    leaves the iterator exhausted; an iteration started after a [next()]
    and a [back()] visits the same characters: a push back loses nothing
    and repeats nothing. *)
Theorem BackableStringIterator_iterate_string (s : jsstring) :
  exists chars : list jsstring,
    BackableStringIterator_iterate (S (List.length s)) (BSI.new s) =
      Ok (chars, exhausted) /\
    concat chars = s /\
    Forall (fun c => List.length c = 1 \/ List.length c = 2) chars /\
    BSI.next exhausted = Ok (None, exhausted) /\
    (forall (c : jsstring) (it1 it2 : BSI.t),
        BSI.next (BSI.new s) = Ok (Some c, it1) ->
        BSI.back it1 = Ok (tt, it2) ->
        BackableStringIterator_iterate (S (List.length s)) it2 =
          Ok (chars, exhausted)).
Proof.
  destruct (@BackableStringIterator_iterate_all (S (List.length s)) s)
    as (chars & Hrun & Hcat & Hall); [lia|].
  exists chars. repeat (split; [assumption || reflexivity|]).
  intros c it1 it2 Hnext Hback.
  rewrite BSI_next_fresh in Hnext by reflexivity. cbn [BSI.new BSI._iter] in Hnext.
  destruct (StringIterator_next s) as [[v|] s'] eqn:E; cbn [fst snd] in Hnext;
    [|discriminate].
  pose proof (StringIterator_next_value _ E) as [Es _].
  assert (v = c) by congruence. subst v.
  assert (it1 = BSI.mk s' (Some c) None) by congruence. subst it1.
  rewrite (@BSI_back_ok _ c) in Hback by reflexivity. cbn [BSI._iter] in Hback.
  assert (it2 = BSI.mk s' None (Some c)) by congruence. subst it2.
  rewrite BackableStringIterator_iterate_unread.
  - unfold unread. cbn [BSI._prev BSI._iter]. rewrite <- Es. exact Hrun.
  - unfold settled. cbn [BSI._prev BSI._iter]. rewrite <- Es. exact E.
Qed.

Lemma BackableStringIterator_iterate_string_witness :
  BackableStringIterator_iterate 3 (BSI.mk (js "b") None (Some (js "a"))) =
  Ok ([js "a"; js "b"], exhausted).
Proof.
  destruct (BackableStringIterator_iterate_string (js "ab"))
    as (chars & Hrun & _ & _ & _ & H).
  vm_compute in Hrun. injection Hrun as Hc. rewrite <- Hc in H.
  apply (H (js "a") (BSI.mk (js "b") (Some (js "a")) None)); reflexivity.
Defined.

(* ------------------------------------------------------------------ *)
(** ** Word by word *)

Lemma semantics_identifier (w : jsstring) :
  isIdentifierText w = true ->
  semantics w = yieldedFor (mkLowLevelToken Identifier (Some w)).
Proof.
  intros Hid. pose proof (tokenizeHighLevel_identifier w Hid) as H.
  rewrite tokenizeHighLevel_semantics in H.
  unfold yieldedFor. cbn [ll_type]. rewrite <- H. reflexivity.
Qed.

(** X11.  A text made of words separated by single spaces, each word free
    of white space and not starting with ["|"] or ["&"], yields word by
    word what [createHighLevelToken] yields for the word. *)
Theorem tokenizeHighLevel_words (words : list jsstring) :
  forallb isIdentifierText words = true ->
  tokenizeHighLevel (joinWords words) =
  Ok (flat_map (fun w => yieldedFor (mkLowLevelToken Identifier (Some w))) words).
Proof.
  intros Hall. rewrite tokenizeHighLevel_semantics. f_equal.
  induction words as [|w words IH]; [reflexivity|].
  cbn [forallb] in Hall. apply andb_true_iff in Hall. destruct Hall as [Hw Hrest].
  specialize (IH Hrest). cbn [flat_map].
  destruct words as [|w' words'].
  - cbn [joinWords flat_map]. rewrite app_nil_r. apply semantics_identifier. exact Hw.
  - transitivity (semantics w ++ semantics (joinWords (w' :: words'))).
    + apply (@semantics_app_run [0x20%N] w (joinWords (w' :: words')));
        [discriminate|reflexivity].
    + rewrite IH, (semantics_identifier w Hw). reflexivity.
Qed.

Lemma tokenizeHighLevel_words_witness :
  tokenizeHighLevel (joinWords [js "r?"; js "@bob"; js "please"; js "@carol|x"]) =
  Ok [Directive_token; mkHighLevelToken AssignReviewer None;
      mkHighLevelToken UserName (Some (js "bob"));
      Unknown_token;
      mkHighLevelToken UserName (Some (js "carol|x"))].
Proof.
  apply (@tokenizeHighLevel_words [js "r?"; js "@bob"; js "please"; js "@carol|x"]).
  reflexivity.
Defined.

(* ------------------------------------------------------------------ *)
(** ** Operators, from the helper to the scanner *)

Lemma isOperatorFragmentCodeUnit_plain (c : code_unit) :
  isOperatorFragmentCodeUnit c = true ->
  isLeadingSurrogate c = false /\ isWhiteSpaceCodeUnit c = false.
Proof.
  intros H. split.
  - destruct (isLeadingSurrogate c) eqn:E; [|reflexivity].
    rewrite (isLeadingSurrogate_not_fragment c E) in H. discriminate.
  - destruct (isWhiteSpaceCodeUnit c) eqn:E; [|reflexivity].
    rewrite (isWhiteSpaceCodeUnit_not_fragment c E) in H. discriminate.
Qed.

Lemma StringIterator_next_single (c : code_unit) (rest : jsstring) :
  isLeadingSurrogate c = false ->
  StringIterator_next (c :: rest) = (Some [c], rest).
Proof.
  intros H. simpl. destruct rest as [|d rest']; [reflexivity|].
  rewrite H. reflexivity.
Qed.

(** On a text that starts with an operator fragment, [_scan] reads it and
    hands over to [_scanOperator]. *)
Lemma scan_new_fragment (fuel : nat) (c : code_unit) (s1 : jsstring) :
  isOperatorFragmentCodeUnit c = true ->
  LLS._scan fuel (LLS.new (c :: s1)) =
  LLS._scanOperator [c] (live (BSI.mk s1 (Some [c]) None)).
Proof.
  intros Hc. destruct (isOperatorFragmentCodeUnit_plain c Hc) as [Hlead Hws].
  change (LLS.new (c :: s1)) with (live (BSI.new (c :: s1))).
  unfold LLS._scan, bind.
  rewrite sourceIter_call_live, BSI_next_fresh by reflexivity.
  cbn [BSI.new BSI._iter].
  rewrite (StringIterator_next_single c s1 Hlead). cbn [fst snd].
  unfold isWhiteSpace. cbn [existsb]. rewrite Hws. cbn [orb].
  rewrite isOperatorFragment_unit, Hc. reflexivity.
Qed.

Lemma scan_new_operator (fuel : nat) (c : code_unit) (rest : jsstring) :
  isOperatorFragmentCodeUnit c = true ->
  LLS._scan fuel (LLS.new (c :: c :: rest)) =
  Ok (mkLowLevelToken Operator (Some [c; c]), live (BSI.mk rest (Some [c]) None)).
Proof.
  intros Hc. destruct (isOperatorFragmentCodeUnit_plain c Hc) as [Hlead _].
  rewrite (scan_new_fragment fuel c (c :: rest) Hc), scanOperator_next.
  rewrite BSI_next_fresh by reflexivity. cbn [BSI._iter].
  rewrite (StringIterator_next_single c rest Hlead). cbn [fst snd].
  rewrite isOperatorFragment_unit, Hc, strictEqual_refl. reflexivity.
Qed.

Lemma scan_new_invalid_other (fuel : nat) (c d : code_unit) (rest : jsstring) :
  isOperatorFragmentCodeUnit c = true ->
  isOperatorFragmentCodeUnit d = true ->
  c <> d ->
  LLS._scan fuel (LLS.new (c :: d :: rest)) =
  Ok (mkLowLevelToken Invalid (Some [c]), live (BSI.mk rest None (Some [d]))).
Proof.
  intros Hc Hd Hne. destruct (isOperatorFragmentCodeUnit_plain d Hd) as [Hlead _].
  rewrite (scan_new_fragment fuel c (d :: rest) Hc), scanOperator_next.
  rewrite BSI_next_fresh by reflexivity. cbn [BSI._iter].
  rewrite (StringIterator_next_single d rest Hlead). cbn [fst snd].
  rewrite isOperatorFragment_unit, Hd, strictEqual_neq by congruence.
  cbn [negb]. rewrite (@BSI_back_ok _ [d]) by reflexivity. reflexivity.
Qed.

Lemma scan_new_invalid_end (fuel : nat) (c : code_unit) :
  isOperatorFragmentCodeUnit c = true ->
  LLS._scan fuel (LLS.new [c]) =
  Ok (mkLowLevelToken Invalid (Some [c]), live exhausted).
Proof.
  intros Hc. rewrite (scan_new_fragment fuel c [] Hc), scanOperator_next.
  reflexivity.
Qed.

Lemma next_new_token (fuel : nat) (s : jsstring) (tok : LowLevelToken) (sc : LLS.t) :
  LLS._scan fuel (LLS.new s) = Ok (tok, sc) ->
  ll_type tok <> LEof ->
  LLS.next fuel (LLS.new s) = Ok (Some tok, sc).
Proof.
  intros H Hty. change (LLS.new s) with (live (BSI.new s)) in *.
  rewrite next_live, H. destruct (ll_type tok); try reflexivity. contradiction.
Qed.

(** The tokens of a text whose first token is known. *)
Lemma lowLevelTokens_first (fuel : nat) (c : code_unit) (s : jsstring)
    (tok : LowLevelToken) (it' : BSI.t) :
  LLS._scan fuel (LLS.new (c :: s)) = Ok (tok, live it') ->
  List.length (c :: s) < fuel ->
  exists it'',
    unread it'' = unread it' /\
    lowLevelTokens (c :: s) =
    match lowLevelTokens (unread it'') with
    | Ok tokens => Ok (tok :: tokens)
    | Throw e => Throw e
    | OutOfFuel => OutOfFuel
    end.
Proof.
  intros H Hlen.
  destruct (@scan_firstToken fuel (c :: s) Hlen) as (it1 & Hscan & _ & Hu).
  assert (tok = fst (firstToken (c :: s)) /\ it' = it1) as [-> ->].
  { rewrite Hscan in H. inversion H. auto. }
  exists it1. split; [reflexivity|].
  rewrite !lowLevelTokens_lex, lex_cons, Hu. f_equal. f_equal.
  pose proof (firstToken_cons c s) as [_ Hl].
  apply lex_stable; simpl in *; lia.
Qed.

(** C7.  The operator policy, at [_scanOperator] and at the scanner.
    [_scanOperator], called with the operator fragment [c] just read: when
    the next character is [c] again the token is [Operator] with value
    [c ++ c]; when it is the other operator fragment the token is [Invalid]
    with value [c] and that character is pushed back, to be read again by
    the next [next()]; when the input ends the token is [Invalid] with value
    [c].  The scanner emits these tokens: on a text that starts with [c c]
    its [_scan] and its [next()] return [Operator] with value [c c], and its
    tokens are that token, then the tokens of the rest; on a text that
    starts with [c d], [d] the other fragment, they return [Invalid] with
    value [c] and leave [d] pushed back, and the tokens are that token, then
    the tokens of the text from [d] on; on the text [c] alone they return
    [Invalid] with value [c], and the tokens are that token and [Eof]; the
    same holds in the middle of an input, whenever the unread text starts
    so.  Hence ["||"] is one [Operator], ["&&"] one [Operator], ["|&"] two
    [Invalid]s, and none of them yields a semantic token. *)
Theorem scanOperator_policy :
  (forall (c : jsstring) (it it1 : BSI.t),
      isOperatorFragment c = true ->
      BSI.next it = Ok (Some c, it1) ->
      LLS._scanOperator c (live it) =
      Ok (mkLowLevelToken Operator (Some (c ++ c)), live it1)) /\
  (forall (c v : jsstring) (it it1 : BSI.t),
      isOperatorFragment c = true ->
      BSI.next it = Ok (Some v, it1) ->
      isOperatorFragment v = true -> v <> c ->
      exists it2,
        BSI.back it1 = Ok (tt, it2) /\
        LLS._scanOperator c (live it) =
        Ok (mkLowLevelToken Invalid (Some c), live it2) /\
        BSI.next it2 = Ok (Some v, it1)) /\
  (forall (c : jsstring) (it it1 : BSI.t),
      isOperatorFragment c = true ->
      BSI.next it = Ok (None, it1) ->
      LLS._scanOperator c (live it) =
      Ok (mkLowLevelToken Invalid (Some c), live it1)) /\
  tokenizeHighLevel (js "||") = Ok [] /\
  tokenizeHighLevel (js "&&") = Ok [] /\
  tokenizeHighLevel (js "|&") = Ok [] /\
  (forall (fuel : nat) (c : code_unit) (rest : jsstring),
      isOperatorFragmentCodeUnit c = true ->
      LLS._scan fuel (LLS.new (c :: c :: rest)) =
        Ok (mkLowLevelToken Operator (Some [c; c]),
            live (BSI.mk rest (Some [c]) None)) /\
      LLS.next fuel (LLS.new (c :: c :: rest)) =
        Ok (Some (mkLowLevelToken Operator (Some [c; c])),
            live (BSI.mk rest (Some [c]) None)) /\
      exists tokens,
        lowLevelTokens rest = Ok tokens /\
        lowLevelTokens (c :: c :: rest) =
        Ok (mkLowLevelToken Operator (Some [c; c]) :: tokens)) /\
  (forall (fuel : nat) (c d : code_unit) (rest : jsstring),
      isOperatorFragmentCodeUnit c = true ->
      isOperatorFragmentCodeUnit d = true ->
      c <> d ->
      LLS._scan fuel (LLS.new (c :: d :: rest)) =
        Ok (mkLowLevelToken Invalid (Some [c]),
            live (BSI.mk rest None (Some [d]))) /\
      LLS.next fuel (LLS.new (c :: d :: rest)) =
        Ok (Some (mkLowLevelToken Invalid (Some [c])),
            live (BSI.mk rest None (Some [d]))) /\
      BSI.next (BSI.mk rest None (Some [d])) =
        Ok (Some [d], BSI.mk rest (Some [d]) None) /\
      exists tokens,
        lowLevelTokens (d :: rest) = Ok tokens /\
        lowLevelTokens (c :: d :: rest) =
        Ok (mkLowLevelToken Invalid (Some [c]) :: tokens)) /\
  (forall (fuel : nat) (c : code_unit),
      isOperatorFragmentCodeUnit c = true ->
      LLS._scan fuel (LLS.new [c]) =
        Ok (mkLowLevelToken Invalid (Some [c]), live exhausted) /\
      LLS.next fuel (LLS.new [c]) =
        Ok (Some (mkLowLevelToken Invalid (Some [c])), live exhausted) /\
      lowLevelTokens [c] =
        Ok [mkLowLevelToken Invalid (Some [c]); mkLowLevelToken LEof None]) /\
  (forall (fuel : nat) (it : BSI.t) (c d : code_unit) (rest : jsstring),
      settled it ->
      isOperatorFragmentCodeUnit c = true ->
      (unread it = c :: c :: rest ->
       LLS._scan fuel (live it) =
         Ok (mkLowLevelToken Operator (Some [c; c]),
             live (BSI.mk rest (Some [c]) None))) /\
      (unread it = c :: d :: rest ->
       isOperatorFragmentCodeUnit d = true -> c <> d ->
       LLS._scan fuel (live it) =
         Ok (mkLowLevelToken Invalid (Some [c]),
             live (BSI.mk rest None (Some [d])))) /\
      (unread it = [c] ->
       LLS._scan fuel (live it) =
         Ok (mkLowLevelToken Invalid (Some [c]), live exhausted))) /\
  lowLevelTokens (js "||") =
    Ok [mkLowLevelToken Operator (Some (js "||")); mkLowLevelToken LEof None] /\
  lowLevelTokens (js "&&") =
    Ok [mkLowLevelToken Operator (Some (js "&&")); mkLowLevelToken LEof None] /\
  lowLevelTokens (js "|&") =
    Ok [mkLowLevelToken Invalid (Some (js "|"));
        mkLowLevelToken Invalid (Some (js "&")); mkLowLevelToken LEof None].
Proof.
  split; [|split; [|split]].
  - intros c it it1 Hc Hnext.
    rewrite scanOperator_next, Hnext, Hc, strictEqual_refl. reflexivity.
  - intros c v it it1 Hc Hnext Hv Hneq.
    destruct (BSI_back_then_next it Hnext) as (it2 & Hb & _ & Hn).
    exists it2. split; [exact Hb|]. split; [|exact Hn].
    rewrite scanOperator_next, Hnext, Hv, strictEqual_neq, Hb; [reflexivity|].
    congruence.
  - intros c it it1 Hc Hnext.
    rewrite scanOperator_next, Hnext. reflexivity.
  - do 3 (split; [reflexivity|]).
    split; [|split; [|split; [|split; [|repeat split; vm_compute; reflexivity]]]].
    + intros fuel c rest Hc.
      pose proof (scan_new_operator fuel c rest Hc) as Hscan.
      split; [exact Hscan|]. split.
      * apply next_new_token; [exact Hscan|discriminate].
      * destruct (@lowLevelTokens_first (S (List.length (c :: c :: rest))) c (c :: rest)
                    _ _ (scan_new_operator _ c rest Hc)) as (it'' & Hu & Hl); [lia|].
        change (unread (BSI.mk rest (Some [c]) None)) with rest in Hu.
        rewrite Hu in Hl. rewrite Hl, lowLevelTokens_lex. eauto.
    + intros fuel c d rest Hc Hd Hne.
      pose proof (scan_new_invalid_other fuel rest Hc Hd Hne) as Hscan.
      split; [exact Hscan|]. split; [|split].
      * apply next_new_token; [exact Hscan|discriminate].
      * apply BSI_next_replay. reflexivity.
      * destruct (@lowLevelTokens_first (S (List.length (c :: d :: rest))) c (d :: rest)
                    _ _ (scan_new_invalid_other _ rest Hc Hd Hne)) as (it'' & Hu & Hl);
          [lia|].
        change (unread (BSI.mk rest None (Some [d]))) with (d :: rest) in Hu.
        rewrite Hu in Hl. rewrite Hl, lowLevelTokens_lex. eauto.
    + intros fuel c Hc.
      pose proof (scan_new_invalid_end fuel c Hc) as Hscan.
      split; [exact Hscan|]. split.
      * apply next_new_token; [exact Hscan|discriminate].
      * destruct (@lowLevelTokens_first 2 c [] _ _ (scan_new_invalid_end _ c Hc))
          as (it'' & Hu & Hl); [simpl; lia|].
        change (unread exhausted) with (@nil code_unit) in Hu.
        rewrite Hu in Hl. rewrite Hl. reflexivity.
    + intros fuel it c d rest Hs Hc. split; [|split].
      * intros Hu. rewrite (scan_unread fuel it Hs), Hu.
        apply scan_new_operator. exact Hc.
      * intros Hu Hd Hne. rewrite (scan_unread fuel it Hs), Hu.
        apply scan_new_invalid_other; assumption.
      * intros Hu. rewrite (scan_unread fuel it Hs), Hu.
        apply scan_new_invalid_end. exact Hc.
Qed.

Lemma scanOperator_policy_witness :
  LLS._scanOperator (js "&") (live (BSI.new (js "&x"))) =
  Ok (mkLowLevelToken Operator (Some (js "&&")),
      live (BSI.mk (js "x") (Some (js "&")) None)) /\
  (exists it2,
      BSI.back (BSI.mk (js "x") (Some (js "&")) None) = Ok (tt, it2) /\
      LLS._scanOperator (js "|") (live (BSI.new (js "&x"))) =
      Ok (mkLowLevelToken Invalid (Some (js "|")), live it2) /\
      BSI.next it2 = Ok (Some (js "&"), BSI.mk (js "x") (Some (js "&")) None)) /\
  LLS._scanOperator (js "|") (live (BSI.new [])) =
  Ok (mkLowLevelToken Invalid (Some (js "|")), live (BSI.new [])) /\
  LLS.next 0 (LLS.new (js "&& r+")) =
  Ok (Some (mkLowLevelToken Operator (Some (js "&&"))),
      live (BSI.mk (js " r+") (Some (js "&")) None)) /\
  LLS.next 0 (LLS.new (js "|&x")) =
  Ok (Some (mkLowLevelToken Invalid (Some (js "|"))),
      live (BSI.mk (js "x") None (Some (js "&")))) /\
  LLS.next 0 (LLS.new (js "|")) =
  Ok (Some (mkLowLevelToken Invalid (Some (js "|"))), live exhausted) /\
  LLS._scan 0 (live (BSI.mk (js "|x") None (Some (js "|")))) =
  Ok (mkLowLevelToken Operator (Some (js "||")),
      live (BSI.mk (js "x") (Some (js "|")) None)).
Proof.
  destruct scanOperator_policy
    as (H1 & H2 & H3 & _ & _ & _ & H4 & H5 & H6 & H7 & _).
  split; [|split; [|split; [|split; [|split; [|split]]]]].
  - apply H1; reflexivity.
  - apply (H2 (js "|") (js "&") (BSI.new (js "&x"))); try reflexivity.
    discriminate.
  - apply H3; reflexivity.
  - apply (H4 0 0x26%N (js " r+")). reflexivity.
  - apply (H5 0 0x7C%N 0x26%N (js "x")); [reflexivity|reflexivity|discriminate].
  - apply (H6 0 0x7C%N). reflexivity.
  - apply (H7 0 (BSI.mk (js "|x") None (Some (js "|"))) 0x7C%N 0x7C%N (js "x"));
      reflexivity.
Defined.
